(** * A to-do list manager: [Task] and [TodoListManager]

    Shallow embedding of the two JavaScript classes of the repository
    ([Task.js] and [TodoListManager.js]) and proofs of the properties the
    specification states about them.

    Modelling choices, all taken from the source:
    - JavaScript strings are sequences of UTF-16 code units;
    - descriptions, due dates and task ids are JavaScript values: the
      documented parameter types are [string] and [number], but the code
      tests for the other cases, so [undefined], [null], booleans,
      numbers and objects (arrays included) are arguments of the model
      too; an object is given by the string its conversion to a string
      returns, which is all the code reads of it (objects whose
      conversion throws or changes between calls are left out); the
      filter of [listTasks], on which the code calls a string method
      without a test, is a string or omitted;
    - [nextId] and the ids drawn from it are integers: the counter starts
      at 1 and is only ever incremented, which is exact on JavaScript
      numbers below 2^53, so both are [Z];
    - a method either returns or throws, and a throw keeps whatever the
      method had already written: computations are functions from a state
      to an outcome and the state reached;
    - the array [tasks] holds one object per successful [addTask], so no
      two positions alias; a reference to a stored task is its position. *)

From Stdlib Require Import ZArith NArith String Ascii Lia.
From stdpp Require Import base option list.

Local Open Scope Z_scope.

(** ** JavaScript strings *)

Definition code_unit := N.
Definition jsstring := list code_unit.

(** UTF-16 code units of an ASCII literal. *)
Fixpoint utf16 (s : string) : jsstring :=
  match s with
  | EmptyString => []
  | String a r => N_of_ascii a :: utf16 r
  end.

(** ECMAScript [WhiteSpace] and [LineTerminator] code points: what
    [String.prototype.trim] strips. *)
Definition is_white_space (c : code_unit) : bool :=
  ((9 <=? c) && (c <=? 13) || (c =? 32) || (c =? 160) || (c =? 5760)
   || (8192 <=? c) && (c <=? 8202) || (c =? 8232) || (c =? 8233)
   || (c =? 8239) || (c =? 8287) || (c =? 12288) || (c =? 65279))%N.

Fixpoint trimStart (s : jsstring) : jsstring :=
  match s with
  | [] => []
  | c :: r => if is_white_space c then trimStart r else s
  end.

Definition trimEnd (s : jsstring) : jsstring := rev (trimStart (rev s)).

(** [String.prototype.trim] *)
Definition trim (s : jsstring) : jsstring := trimEnd (trimStart s).

Definition is_empty (s : jsstring) : bool :=
  match s with [] => true | _ => false end.

(** [String.prototype.toLowerCase].  A–Z go to a–z.  The two code points
    outside A–Z whose lower-case image contains an ASCII letter are mapped
    as Unicode does (U+0130 to i followed by U+0307, U+212A to k); every
    other code unit has a non-ASCII image and is kept as it is, which does
    not change any comparison with an ASCII word. *)
Definition lower_code_unit (c : code_unit) : jsstring :=
  (if (65 <=? c) && (c <=? 90) then [c + 32]
   else if c =? 304 then [105; 775]
   else if c =? 8490 then [107]
   else [c])%N.

Definition toLowerCase (s : jsstring) : jsstring :=
  flat_map lower_code_unit s.

(** ** Regular expressions of the shape used by the source

    [/^\d{4}-\d{2}-\d{2}$/]: a sequence of atoms, anchored at both ends
    (no [m] flag, so [$] is the end of the input). *)

Inductive atom :=
| Digit                    (* \d *)
| Lit (c : code_unit).     (* a literal character *)

Definition is_digit (c : code_unit) : bool := ((48 <=? c) && (c <=? 57))%N.

Definition atom_matches (a : atom) (c : code_unit) : bool :=
  match a with
  | Digit => is_digit c
  | Lit d => (c =? d)%N
  end.

Fixpoint anchored_match (p : list atom) (s : jsstring) : bool :=
  match p, s with
  | [], [] => true
  | a :: p', c :: s' => atom_matches a c && anchored_match p' s'
  | _, _ => false
  end.

Definition dash : code_unit := 45%N.

(** [/^\d{4}-\d{2}-\d{2}$/] *)
Definition date_regex : list atom :=
  replicate 4 Digit ++ [Lit dash] ++ replicate 2 Digit ++ [Lit dash]
  ++ replicate 2 Digit.

(** ** JavaScript values *)

(** Numbers: the integers, NaN, and the remaining numbers (fractions and
    the infinities), which behave alike in this program: they are truthy,
    of type number and equal to no integer. *)
Inductive JsNum :=
| NInt (z : Z)
| NNaN
| NNonInt.

Inductive JsVal :=
| JUndefined
| JNull
| JBool (b : bool)
| JNum (n : JsNum)
| JStr (s : jsstring)
| JObj (str : jsstring).   (* an object or array whose string conversion is [str] *)

(** [!!v] *)
Definition ToBoolean (v : JsVal) : bool :=
  match v with
  | JUndefined | JNull => false
  | JBool b => b
  | JNum (NInt z) => negb (z =? 0)
  | JNum NNaN => false
  | JNum NNonInt => true
  | JStr s => negb (is_empty s)
  | JObj _ => true
  end.

Inductive JsType := TUndefined | TObject | TBoolean | TNumber | TString.

Definition typeof (v : JsVal) : JsType :=
  match v with
  | JUndefined => TUndefined
  | JNull => TObject
  | JBool _ => TBoolean
  | JNum _ => TNumber
  | JStr _ => TString
  | JObj _ => TObject
  end.

Definition is_string (v : JsVal) : bool :=
  match typeof v with TString => true | _ => false end.

Definition is_number (v : JsVal) : bool :=
  match typeof v with TNumber => true | _ => false end.

(** [regex.test(v)] converts [v] to a string first: an array such as
    [['2024-08-20']] is tested through the string it joins to.  The
    string of a number has a ['-'] only in front or after an exponent
    mark, never after four digits, so no number passes [date_regex]. *)
Definition date_regex_test (v : JsVal) : bool :=
  match v with
  | JStr s => anchored_match date_regex s
  | JObj str => anchored_match date_regex str
  | JUndefined => anchored_match date_regex (utf16 "undefined")
  | JNull => anchored_match date_regex (utf16 "null")
  | JBool true => anchored_match date_regex (utf16 "true")
  | JBool false => anchored_match date_regex (utf16 "false")
  | JNum _ => false
  end.

(** [a === b] where [a] is an integer id. *)
Definition strict_equals_int (a : Z) (b : JsVal) : bool :=
  match b with
  | JNum (NInt z) => a =? z
  | _ => false
  end.

(** ** Errors and the console *)

Inductive Action := MarkAsComplete | MarkAsIncomplete | Delete | Update.

(** Every throw of the source is [new Error(message)]; the constructors
    name the message templates. *)
Inductive Error :=
| TaskDescriptionEmpty       (* 'Task description cannot be empty.' *)
| InvalidDueDate             (* 'Invalid or missing due date. Expected format YYYY-MM-DD.' *)
| NewTaskDescriptionEmpty    (* 'New task description cannot be empty.' *)
| InvalidNewDueDate          (* 'Invalid or missing new due date. Expected format YYYY-MM-DD.' *)
| TaskNotFound (taskId : JsVal) (action : Action)
                             (* `Task with ID ${taskId} not found. Cannot <action>.` *)
| InvalidFilterStatus (filterStatus : jsstring).
                             (* `Invalid filter status: "${filterStatus}". Use ...` *)

Definition double_quote : code_unit := 34%N.

(** The message of the error thrown by [listTasks]. *)
Definition invalid_filter_message (filterStatus : jsstring) : jsstring :=
  utf16 "Invalid filter status: " ++ [double_quote] ++ filterStatus
  ++ [double_quote] ++ utf16 ". Use 'all', 'completed', or 'pending'.".

(** The spec's taxonomy of the errors. *)
Inductive ErrorKind := ValidationError | NotFoundError | InvalidFilterError.

Definition kind_of (e : Error) : ErrorKind :=
  match e with
  | TaskDescriptionEmpty | InvalidDueDate
  | NewTaskDescriptionEmpty | InvalidNewDueDate => ValidationError
  | TaskNotFound _ _ => NotFoundError
  | InvalidFilterStatus _ => InvalidFilterError
  end.

Inductive ConsoleLine :=
| ErrorAddingTask (e : Error)         (* console.error("Error adding task:", error.message) *)
| NonNumericId (taskId : JsVal).      (* console.warn("Attempted to find task with non-numeric ID:", taskId) *)

(** ** Computations that may throw

    [M S A]: run on a state [S], end with a value or a thrown error, and
    leave a state.  A throw does not undo earlier writes. *)

Definition M (S A : Type) : Type := S -> (Error + A) * S.

Definition ret {S A} (a : A) : M S A := fun s => (inr a, s).

Definition throw {S A} (e : Error) : M S A := fun s => (inl e, s).

Definition bind {S A B} (m : M S A) (k : A -> M S B) : M S B :=
  fun s =>
    match m s with
    | (inr a, s') => k a s'
    | (inl e, s') => (inl e, s')
    end.

Definition try_catch {S A} (m : M S A) (handler : Error -> M S A) : M S A :=
  fun s =>
    match m s with
    | (inr a, s') => (inr a, s')
    | (inl e, s') => handler e s'
    end.

Definition gets {S A} (f : S -> A) : M S A := fun s => (inr (f s), s).

Definition modify {S} (f : S -> S) : M S unit := fun s => (inr tt, f s).

Declare Scope js_scope.
Delimit Scope js_scope with js.
Notation "x <- m ;; k" := (bind m (fun x => k))
  (at level 100, m at next level, right associativity) : js_scope.
Notation "m ;;; k" := (bind m (fun _ => k))
  (at level 100, right associativity) : js_scope.

Local Open Scope js_scope.

(** ** The class [Task] *)

Module Task.

Record t := mk {
  id : Z;
  description : jsstring;
  dueDate : JsVal;
  completed : bool
}.

Definition set_description (d : jsstring) (task : t) : t :=
  mk (id task) d (dueDate task) (completed task).

Definition set_dueDate (d : JsVal) (task : t) : t :=
  mk (id task) (description task) d (completed task).

Definition set_completed (b : bool) (task : t) : t :=
  mk (id task) (description task) (dueDate task) b.

(** [v.trim()], called by the source on strings only (the [||] before it
    has already returned for any other value). *)
Definition trim_of (v : JsVal) : jsstring :=
  match v with
  | JStr s => trim s
  | _ => []
  end.

(** [!description || typeof description !== 'string' || description.trim() === ''] *)
Definition description_rejected (description : JsVal) : bool :=
  negb (ToBoolean description) || negb (is_string description)
  || is_empty (trim_of description).

(** [!dueDate || !/^\d{4}-\d{2}-\d{2}$/.test(dueDate)] *)
Definition dueDate_rejected (dueDate : JsVal) : bool :=
  negb (ToBoolean dueDate) || negb (date_regex_test dueDate).

(** [new Task(id, description, dueDate, completed = false)]; [None] is
    the omitted fourth argument. *)
Definition constructor (id : Z) (description dueDate : JsVal)
    (completed : option bool) : Error + t :=
  if description_rejected description then inl TaskDescriptionEmpty
  else if dueDate_rejected dueDate then inl InvalidDueDate
  else inr (mk id (trim_of description) dueDate (default false completed)).

Definition markComplete : M t unit := modify (set_completed true).

Definition markIncomplete : M t unit := modify (set_completed false).

Definition updateDescription (newDescription : JsVal) : M t unit :=
  if description_rejected newDescription then throw NewTaskDescriptionEmpty
  else modify (set_description (trim_of newDescription)).

Definition updateDueDate (newDueDate : JsVal) : M t unit :=
  if dueDate_rejected newDueDate then throw InvalidNewDueDate
  else modify (set_dueDate newDueDate).

End Task.

(** ** The class [TodoListManager] *)

(** The [updates] object of [updateTask]: [Some v] when the object has
    the own property (whatever its value), [None] when it has not. *)
Record Updates := {
  upd_description : option JsVal;
  upd_dueDate : option JsVal
}.

Module TodoListManager.

Record t := mk {
  tasks : list Task.t;
  nextId : Z
}.

(** What a method call can read and write: the manager object and the
    console. *)
Record World := World_mk {
  manager : t;
  console : list ConsoleLine
}.

Definition constructor : t := mk [] 1.

Definition fresh : World := World_mk constructor [].

Definition set_tasks (l : list Task.t) (w : World) : World :=
  World_mk (mk l (nextId (manager w))) (console w).

(** [this.nextId++] *)
Definition incr_nextId (w : World) : World :=
  World_mk (mk (tasks (manager w)) (nextId (manager w) + 1)) (console w).

Definition log (line : ConsoleLine) (w : World) : World :=
  World_mk (manager w) (console w ++ [line]).

(** A reference to a stored task: its position in [tasks], together
    with the object found there. *)
Definition Ref : Type := nat * Task.t.

(** Calling Task methods through a reference: run them on the object
    and leave the result in its place. *)
Definition on_task {A} (ref : Ref) (m : M Task.t A) : M World A :=
  fun w =>
    let '(r, task') := m ref.2 in
    (r, set_tasks (<[ref.1 := task']> (tasks (manager w))) w).

(** [task => task.id === taskId] *)
Definition has_id (taskId : JsVal) (task : Task.t) : bool :=
  strict_equals_int (Task.id task) taskId.

(** [Array.prototype.find]: the first element that passes, with its
    position standing for the identity of the object. *)
Definition find (p : Task.t -> bool) (l : list Task.t) : option Ref :=
  list_find (fun task => Is_true (p task)) l.

(** [Array.prototype.findIndex]; [None] is the source's [-1]. *)
Definition findIndex (p : Task.t -> bool) (l : list Task.t) : option nat :=
  fst <$> list_find (fun task => Is_true (p task)) l.

Definition addTask (description dueDate : JsVal) : M World Task.t :=
  try_catch
    (n <- gets (fun w => nextId (manager w)) ;;
     newTask <- (fun w => (Task.constructor n description dueDate None, w)) ;;
     modify (fun w => set_tasks (tasks (manager w) ++ [newTask]) w) ;;;
     modify incr_nextId ;;;
     ret newTask)
    (fun error =>
       modify (log (ErrorAddingTask error)) ;;;
       throw error).

Definition _findTaskById (taskId : JsVal) : M World (option Ref) :=
  if negb (is_number taskId) then
    modify (log (NonNumericId taskId)) ;;;
    ret None
  else
    gets (fun w => find (has_id taskId) (tasks (manager w))).

Definition markTaskComplete (taskId : JsVal) : M World Task.t :=
  task <- _findTaskById taskId ;;
  match task with
  | None => throw (TaskNotFound taskId MarkAsComplete)
  | Some ref => on_task ref (Task.markComplete ;;; gets (fun task => task))
  end.

Definition markTaskIncomplete (taskId : JsVal) : M World Task.t :=
  task <- _findTaskById taskId ;;
  match task with
  | None => throw (TaskNotFound taskId MarkAsIncomplete)
  | Some ref => on_task ref (Task.markIncomplete ;;; gets (fun task => task))
  end.

(** [listTasks(filterStatus = 'all')]; [None] is the omitted argument. *)
Definition listTasks (filterStatus : option jsstring) : M World (list Task.t) :=
  let filterStatus := default (utf16 "all") filterStatus in
  let key := toLowerCase filterStatus in
  if bool_decide (key = utf16 "all") then
    gets (fun w => tasks (manager w))
  else if bool_decide (key = utf16 "completed") then
    gets (fun w => filter (fun task => Is_true (Task.completed task)) (tasks (manager w)))
  else if bool_decide (key = utf16 "pending") then
    gets (fun w => filter (fun task => Is_true (negb (Task.completed task))) (tasks (manager w)))
  else
    throw (InvalidFilterStatus filterStatus).

Definition deleteTask (taskId : JsVal) : M World bool :=
  taskIndex <- gets (fun w => findIndex (has_id taskId) (tasks (manager w))) ;;
  match taskIndex with
  | None => throw (TaskNotFound taskId Delete)
  | Some i =>
      modify (fun w => set_tasks (delete i (tasks (manager w))) w) ;;;
      ret true
  end.

Definition updateTask (taskId : JsVal) (updates : Updates) : M World Task.t :=
  task <- _findTaskById taskId ;;
  match task with
  | None => throw (TaskNotFound taskId Update)
  | Some ref =>
      on_task ref
        (match upd_description updates with
         | Some d => Task.updateDescription d
         | None => ret tt
         end ;;;
         match upd_dueDate updates with
         | Some d => Task.updateDueDate d
         | None => ret tt
         end ;;;
         gets (fun task => task))
  end.

End TodoListManager.

Import TodoListManager.

(** ** Calls and reachable states *)

(** The Task methods. *)
Inductive TaskCall :=
| MarkComplete
| MarkIncomplete
| UpdateDescription (newDescription : JsVal)
| UpdateDueDate (newDueDate : JsVal).

Definition task_call (c : TaskCall) : M Task.t unit :=
  match c with
  | MarkComplete => Task.markComplete
  | MarkIncomplete => Task.markIncomplete
  | UpdateDescription v => Task.updateDescription v
  | UpdateDueDate v => Task.updateDueDate v
  end.

(** What a client can do with a manager: call its methods, and call Task
    methods on a stored task it holds a reference to ([addTask],
    [listTasks] and the others hand out the stored objects themselves). *)
Inductive Call :=
| AddTask (description dueDate : JsVal)
| FindTaskById (taskId : JsVal)
| MarkTaskComplete (taskId : JsVal)
| MarkTaskIncomplete (taskId : JsVal)
| ListTasks (filterStatus : option jsstring)
| DeleteTask (taskId : JsVal)
| UpdateTask (taskId : JsVal) (updates : Updates)
| OnStored (i : nat) (c : TaskCall).

(** The five mutating manager operations. *)
Definition mutating (c : Call) : bool :=
  match c with
  | AddTask _ _ | MarkTaskComplete _ | MarkTaskIncomplete _
  | DeleteTask _ | UpdateTask _ _ => true
  | _ => false
  end.

(** Forget the returned value: the thrown error, if any, and the state
    reached. *)
Definition forget {S A} (r : (Error + A) * S) : option Error * S :=
  (match r.1 with inl e => Some e | inr _ => None end, r.2).

Definition call (c : Call) (w : World) : option Error * World :=
  match c with
  | AddTask d dd => forget (addTask d dd w)
  | FindTaskById taskId => forget (_findTaskById taskId w)
  | MarkTaskComplete taskId => forget (markTaskComplete taskId w)
  | MarkTaskIncomplete taskId => forget (markTaskIncomplete taskId w)
  | ListTasks f => forget (listTasks f w)
  | DeleteTask taskId => forget (deleteTask taskId w)
  | UpdateTask taskId u => forget (updateTask taskId u w)
  | OnStored i c =>
      match tasks (manager w) !! i with
      | Some task => forget (on_task (i, task) (task_call c) w)
      | None => (None, w)
      end
  end.

Definition thrown (c : Call) (w : World) : option Error := (call c w).1.

Definition exec (c : Call) (w : World) : World := (call c w).2.

Definition run (cs : list Call) (w : World) : World :=
  foldl (fun w c => exec c w) w cs.

Definition reachable (w : World) : Prop := exists cs, w = run cs fresh.

(** Tasks reachable on their own: construction, then any Task methods. *)
Inductive task_reachable : Task.t -> Prop :=
| reach_new id d dd c task :
    Task.constructor id d dd c = inr task -> task_reachable task
| reach_call task c :
    task_reachable task -> task_reachable (task_call c task).2.

(** ** The words of the specification *)

Definition all_digits (s : jsstring) : Prop :=
  Forall (fun c => (48 <= c <= 57)%N) s.

(** Four digits, dash, two digits, dash, two digits. *)
Definition yyyy_mm_dd (s : jsstring) : Prop :=
  exists y m d,
    s = y ++ [dash] ++ m ++ [dash] ++ d
    /\ length y = 4%nat /\ length m = 2%nat /\ length d = 2%nat
    /\ all_digits y /\ all_digits m /\ all_digits d.

Definition whitespace_only (s : jsstring) : Prop :=
  Forall (fun c => Is_true (is_white_space c)) s.

(** A description the spec calls valid: a string, non-empty after trimming. *)
Definition valid_description (v : JsVal) : Prop :=
  exists s, v = JStr s /\ trim s <> [].

(** Missing, not a string, or trims to empty. *)
Definition invalid_description (v : JsVal) : Prop :=
  v = JUndefined \/ v = JNull \/ is_string v = false
  \/ exists s, v = JStr s /\ trim s = [].

(** What the pattern is matched against: a string itself, an object
    through its string conversion. *)
Definition tested_as (v : JsVal) (s : jsstring) : Prop :=
  v = JStr s \/ v = JObj s.

(** A due date the check lets through: a string of the shape, or an
    object whose string conversion has it. *)
Definition valid_dueDate (v : JsVal) : Prop :=
  exists s, tested_as v s /\ yyyy_mm_dd s.

(** Missing, or not matching the pattern. *)
Definition invalid_dueDate (v : JsVal) : Prop :=
  v = JUndefined \/ v = JNull \/ ~ valid_dueDate v.

(** The due date of the spec's data model: text of the shape. *)
Definition text_dueDate (v : JsVal) : Prop :=
  exists s, v = JStr s /\ yyyy_mm_dd s.

(** An array holding one date string: it is not text, and its string
    conversion is the date. *)
Definition date_in_array : JsVal := JObj (utf16 "2024-08-20").

(** The task [addTask] makes of it on a fresh manager. *)
Definition report_with_array : Task.t :=
  Task.mk 1 (utf16 "Report") date_in_array false.

(** The invariant of a Task. *)
Definition task_ok (task : Task.t) : Prop :=
  Task.description task <> []
  /\ trim (Task.description task) = Task.description task
  /\ ~ whitespace_only (Task.description task)
  /\ valid_dueDate (Task.dueDate task).

(** An integer argument. *)
Definition is_integer (v : JsVal) : bool :=
  match v with
  | JNum (NInt _) => true
  | _ => false
  end.

(** What a successful mark leaves: the flag of the first task with
    the id, and nothing else. *)
Definition only_flag_changed (taskId : JsVal) (b : bool) (w w' : World)
    (returned : Task.t) : Prop :=
  exists i task,
    tasks (manager w) !! i = Some task
    /\ taskId = JNum (NInt (Task.id task))
    /\ (forall j task', tasks (manager w) !! j = Some task' -> (j < i)%nat ->
                        taskId <> JNum (NInt (Task.id task')))
    /\ tasks (manager w') !! i = Some returned
    /\ Task.completed returned = b
    /\ Task.id returned = Task.id task
    /\ Task.description returned = Task.description task
    /\ Task.dueDate returned = Task.dueDate task
    /\ (forall j, j <> i -> tasks (manager w') !! j = tasks (manager w) !! j)
    /\ length (tasks (manager w')) = length (tasks (manager w))
    /\ nextId (manager w') = nextId (manager w)
    /\ console w' = console w.

(** [l] is an order-preserving merge of [l1] and [l2]: every position of
    [l] comes from exactly one of the two, and each keeps its order. *)
Inductive merge_of {A} : list A -> list A -> list A -> Prop :=
| merge_nil : merge_of [] [] []
| merge_left x l1 l2 l : merge_of l1 l2 l -> merge_of (x :: l1) l2 (x :: l)
| merge_right x l1 l2 l : merge_of l1 l2 l -> merge_of l1 (x :: l2) (x :: l).

(** The two filtered listings. *)
Definition completed_tasks (l : list Task.t) : list Task.t :=
  filter (fun task => Is_true (Task.completed task)) l.

Definition pending_tasks (l : list Task.t) : list Task.t :=
  filter (fun task => Is_true (negb (Task.completed task))) l.

(** The part of [updateTask] that runs on the task found: the two
    guarded updates, description first, then the task is returned. *)
Definition update_found (updates : Updates) : M Task.t Task.t :=
  (match upd_description updates with
   | Some d => Task.updateDescription d
   | None => ret tt
   end ;;;
   match upd_dueDate updates with
   | Some d => Task.updateDueDate d
   | None => ret tt
   end ;;;
   gets (fun task => task))%js.

(** An [updateTask] whose [updates] carry both a description the
    validation accepts and a due date it refuses: the id asked for and
    the description. *)
Definition accepted_then_refused (c : Call) : option (JsVal * JsVal) :=
  match c with
  | UpdateTask taskId {| upd_description := Some d; upd_dueDate := Some dd |} =>
      if negb (Task.description_rejected d) && Task.dueDate_rejected dd
      then Some (taskId, d)
      else None
  | _ => None
  end.

(** A manager holding one task, and an update of it with a good
    description and a bad due date. *)
Definition one_task : World :=
  run [AddTask (JStr (utf16 "Old description")) (JStr (utf16 "2024-12-01"))] fresh.

Definition half_valid : Updates :=
  {| upd_description := Some (JStr (utf16 "New description"));
     upd_dueDate := Some (JStr (utf16 "invalid")) |}.

(** The manager of the spec's scenario after its two additions. *)
Definition two_tasks : World :=
  run [AddTask (JStr (utf16 "Buy milk")) (JStr (utf16 "2024-08-15"));
       AddTask (JStr (utf16 "Report")) (JStr (utf16 "2024-08-20"))] fresh.

Definition buy_milk (completed : bool) : Task.t :=
  Task.mk 1 (utf16 "Buy milk") (JStr (utf16 "2024-08-15")) completed.

Definition report : Task.t :=
  Task.mk 2 (utf16 "Report") (JStr (utf16 "2024-08-20")) false.

(** The ids in the sequence, in order. *)
Definition ids (w : World) : list Z := Task.id <$> tasks (manager w).

(** Ids are pairwise distinct and below the counter. *)
Definition ids_ok (w : World) : Prop :=
  NoDup (ids w) /\ Forall (fun i => i < nextId (manager w)) (ids w).

(** The four ways one call can change the manager object: not at all;
    a new task with the counter as id at the end, and the counter one
    up; one stored task replaced by a task with the same id; one
    position removed. *)
Inductive manager_step (m m' : TodoListManager.t) : Prop :=
| step_same :
    m' = m -> manager_step m m'
| step_add task :
    Task.id task = nextId m -> task_ok task ->
    m' = mk (tasks m ++ [task]) (nextId m + 1) -> manager_step m m'
| step_change i task task' :
    tasks m !! i = Some task -> Task.id task' = Task.id task ->
    (task_ok task -> task_ok task') ->
    m' = mk (<[i := task']> (tasks m)) (nextId m) -> manager_step m m'
| step_delete i :
    m' = mk (delete i (tasks m)) (nextId m) -> manager_step m m'.

(** ** Words for the further properties *)

(** [task], at position [i], is the first task of [l] with the id
    [taskId]: what [find] and [findIndex] stop at. *)
Definition first_with_id (taskId : JsVal) (l : list Task.t) (i : nat)
    (task : Task.t) : Prop :=
  l !! i = Some task
  /\ taskId = JNum (NInt (Task.id task))
  /\ forall j task', l !! j = Some task' -> (j < i)%nat ->
                     Task.id task' <> Task.id task.

(** No task of [l] has the id [taskId]. *)
Definition absent (taskId : JsVal) (l : list Task.t) : Prop :=
  forall task, task ∈ l -> taskId <> JNum (NInt (Task.id task)).

(** [w'] is [w] with the task at position [i] replaced by [task']. *)
Definition only_changed_at (i : nat) (w w' : World) (task' : Task.t) : Prop :=
  tasks (manager w') !! i = Some task'
  /\ (forall j, j <> i -> tasks (manager w') !! j = tasks (manager w) !! j)
  /\ length (tasks (manager w')) = length (tasks (manager w))
  /\ nextId (manager w') = nextId (manager w)
  /\ console w' = console w.

(** The state [_findTaskById] leaves: a warning on the console when the
    argument is not of type number. *)
Definition warned (taskId : JsVal) (w : World) : World :=
  if is_number taskId then w else log (NonNumericId taskId) w.

(** Strictly increasing along the positions. *)
Definition increasing (l : list Z) : Prop :=
  forall i j a b, l !! i = Some a -> l !! j = Some b -> (i < j)%nat -> a < b.

Definition is_add (c : Call) : bool :=
  match c with AddTask _ _ => true | _ => false end.

Definition is_delete (c : Call) : bool :=
  match c with DeleteTask _ => true | _ => false end.

(** How many calls of the kind [kind] returned (did not throw) while
    [cs] ran from [w]. *)
Fixpoint returned_calls (kind : Call -> bool) (cs : list Call) (w : World) : nat :=
  match cs with
  | [] => 0%nat
  | c :: cs' =>
      ((if kind c && bool_decide (thrown c w = None) then 1 else 0)
       + returned_calls kind cs' (exec c w))%nat
  end.

(** The errors a call can throw. *)
Definition may_throw (c : Call) (e : Error) : Prop :=
  match c with
  | AddTask _ _ => e = TaskDescriptionEmpty \/ e = InvalidDueDate
  | FindTaskById _ => False
  | MarkTaskComplete taskId => e = TaskNotFound taskId MarkAsComplete
  | MarkTaskIncomplete taskId => e = TaskNotFound taskId MarkAsIncomplete
  | ListTasks f => e = InvalidFilterStatus (default (utf16 "all") f)
  | DeleteTask taskId => e = TaskNotFound taskId Delete
  | UpdateTask taskId u =>
      e = TaskNotFound taskId Update
      \/ (e = NewTaskDescriptionEmpty /\ is_Some (upd_description u))
      \/ (e = InvalidNewDueDate /\ is_Some (upd_dueDate u))
  | OnStored _ MarkComplete | OnStored _ MarkIncomplete => False
  | OnStored _ (UpdateDescription _) => e = NewTaskDescriptionEmpty
  | OnStored _ (UpdateDueDate _) => e = InvalidNewDueDate
  end.

(** The lines a call can write on the console. *)
Definition may_log (c : Call) (line : ConsoleLine) : Prop :=
  match c with
  | AddTask _ _ =>
      line = ErrorAddingTask TaskDescriptionEmpty
      \/ line = ErrorAddingTask InvalidDueDate
  | FindTaskById taskId | MarkTaskComplete taskId | MarkTaskIncomplete taskId
  | UpdateTask taskId _ =>
      line = NonNumericId taskId /\ is_number taskId = false
  | ListTasks _ | DeleteTask _ | OnStored _ _ => False
  end.

(** [f] spells [word] up to the case of its ASCII letters: each code
    unit is the one of [word], or a capital letter 32 below it. *)
Definition spells (word f : jsstring) : Prop :=
  Forall2 (fun c k => c = k \/ ((65 <= c <= 90)%N /\ (c + 32)%N = k)) f word.

(** Lower-case ASCII letters other than k. *)
Definition plain_lower (word : jsstring) : Prop :=
  Forall (fun k => (97 <= k <= 122)%N /\ k <> 107%N) word.

(** * Proofs *)

Example scenario_add :
  addTask (JStr (utf16 "  Buy milk ")) (JStr (utf16 "2024-08-15")) fresh
  = (inr (Task.mk 1 (utf16 "Buy milk") (JStr (utf16 "2024-08-15")) false),
     World_mk (mk [Task.mk 1 (utf16 "Buy milk") (JStr (utf16 "2024-08-15")) false] 2) []).
Proof. vm_compute. reflexivity. Qed.

(** The scenario of the spec: two additions, task 1 completed, the
    pending listing, task 1 deleted, the full listing, the lookup of 1. *)
Example scenario_two_tasks :
  manager two_tasks = mk [buy_milk false; report] 3.
Proof. reflexivity. Qed.

Example scenario_complete :
  markTaskComplete (JNum (NInt 1)) two_tasks
  = (inr (buy_milk true), World_mk (mk [buy_milk true; report] 3) []).
Proof. reflexivity. Qed.

Example scenario_pending :
  (listTasks (Some (utf16 "pending")) (exec (MarkTaskComplete (JNum (NInt 1))) two_tasks)).1
  = inr [report].
Proof. reflexivity. Qed.

Example scenario_delete :
  deleteTask (JNum (NInt 1)) (exec (MarkTaskComplete (JNum (NInt 1))) two_tasks)
  = (inr true, World_mk (mk [report] 3) []).
Proof. reflexivity. Qed.

Example scenario_find_deleted :
  _findTaskById (JNum (NInt 1)) (World_mk (mk [report] 3) [])
  = (inr None, World_mk (mk [report] 3) []).
Proof. reflexivity. Qed.

Example scenario_empty_description :
  addTask (JStr []) (JStr (utf16 "2024-01-01")) fresh
  = (inl TaskDescriptionEmpty, World_mk (mk [] 1) [ErrorAddingTask TaskDescriptionEmpty]).
Proof. reflexivity. Qed.

Example scenario_urgent :
  listTasks (Some (utf16 "urgent")) two_tasks
  = (inl (InvalidFilterStatus (utf16 "urgent")), two_tasks).
Proof. reflexivity. Qed.

Example find_string_id :
  _findTaskById (JStr (utf16 "1")) two_tasks
  = (inr None, log (NonNumericId (JStr (utf16 "1"))) two_tasks).
Proof. reflexivity. Qed.

(** ** Strings: trimming and the date pattern *)

Section Trim.

Lemma trimStart_snoc l c :
  is_white_space c = false -> trimStart (l ++ [c]) = trimStart l ++ [c].
Proof.
  intros Hc. induction l as [|a l IH]; simpl.
  - by rewrite Hc.
  - destruct (is_white_space a); [exact IH | reflexivity].
Qed.

Lemma trimStart_length s : (length (trimStart s) <= length s)%nat.
Proof.
  induction s as [|c r IH]; simpl; [lia|].
  destruct (is_white_space c); simpl; lia.
Qed.

Lemma trimStart_fixed_head c r :
  trimStart (c :: r) = c :: r -> is_white_space c = false.
Proof.
  simpl. destruct (is_white_space c) eqn:E; [|done].
  intros H. pose proof (trimStart_length r) as Hl.
  rewrite H in Hl. simpl in Hl. lia.
Qed.

Lemma trimStart_idem s : trimStart (trimStart s) = trimStart s.
Proof.
  induction s as [|c r IH]; simpl; [done|].
  destruct (is_white_space c) eqn:E; [exact IH|].
  simpl. by rewrite E.
Qed.

Lemma trimEnd_idem s : trimEnd (trimEnd s) = trimEnd s.
Proof. unfold trimEnd. by rewrite rev_involutive, trimStart_idem. Qed.

Lemma trimStart_trimEnd s :
  trimStart s = s -> trimStart (trimEnd s) = trimEnd s.
Proof.
  destruct s as [|c r]; [done|].
  intros H. apply trimStart_fixed_head in H.
  unfold trimEnd. simpl rev.
  rewrite trimStart_snoc, rev_app_distr by done.
  simpl. by rewrite H.
Qed.

Lemma trimStart_trim s : trimStart (trim s) = trim s.
Proof. unfold trim. apply trimStart_trimEnd, trimStart_idem. Qed.

Lemma trim_idem s : trim (trim s) = trim s.
Proof.
  unfold trim at 1. rewrite trimStart_trim.
  unfold trim. apply trimEnd_idem.
Qed.

(** [trim] removes a run of white space at each end and nothing else. *)
Lemma trimStart_split s :
  exists before, s = before ++ trimStart s /\ whitespace_only before.
Proof.
  induction s as [|c r (before & Hr & Hw)]; simpl.
  - exists []. split; [done | constructor].
  - destruct (is_white_space c) eqn:E.
    + exists (c :: before). split; [by rewrite Hr at 1|].
      constructor; [by rewrite E | done].
    + exists []. split; [done | constructor].
Qed.

Lemma trimEnd_split s :
  exists after, s = trimEnd s ++ after /\ whitespace_only after.
Proof.
  destruct (trimStart_split (rev s)) as (before & Hs & Hw).
  exists (rev before). split.
  - unfold trimEnd. by rewrite <- rev_app_distr, <- Hs, rev_involutive.
  - by apply Forall_rev.
Qed.

Lemma trim_split s :
  exists before after,
    s = before ++ trim s ++ after /\ whitespace_only before /\ whitespace_only after.
Proof.
  destruct (trimStart_split s) as (before & Hs & Hb).
  destruct (trimEnd_split (trimStart s)) as (after & Ht & Ha).
  exists before, after. split_and!; try done.
  unfold trim. by rewrite <- Ht.
Qed.

Lemma trimStart_whitespace_only s : whitespace_only s -> trimStart s = [].
Proof.
  induction 1 as [|c r Hc _ IH]; simpl; [done|].
  destruct (is_white_space c); [exact IH | done].
Qed.

Lemma trim_whitespace_only s : whitespace_only s -> trim s = [].
Proof. intros H. unfold trim. by rewrite trimStart_whitespace_only. Qed.

Lemma trimmed_not_whitespace_only s :
  s <> [] -> trim s = s -> ~ whitespace_only s.
Proof. intros Hne Ht Hw. rewrite trim_whitespace_only in Ht; congruence. Qed.

End Trim.

Section DatePattern.

Lemma is_digit_spec c : is_digit c = true <-> (48 <= c <= 57)%N.
Proof. unfold is_digit. rewrite andb_true_iff, !N.leb_le. tauto. Qed.

Lemma date_regex_yyyy_mm_dd s :
  anchored_match date_regex s = true <-> yyyy_mm_dd s.
Proof.
  split.
  - destruct s as [|y1 [|y2 [|y3 [|y4 [|h1 [|m1 [|m2 [|h2 [|d1 [|d2 [|x s]]]]]]]]]]];
      simpl; rewrite ?andb_false_r; try discriminate.
    rewrite !andb_true_iff, !is_digit_spec, !N.eqb_eq.
    intros (Hy1 & Hy2 & Hy3 & Hy4 & -> & Hm1 & Hm2 & -> & Hd1 & Hd2 & _).
    exists [y1; y2; y3; y4], [m1; m2], [d1; d2].
    unfold all_digits. repeat split; repeat constructor; tauto.
  - intros (y & m & d & -> & Hy & Hm & Hd & Dy & Dm & Dd).
    destruct y as [|y1 [|y2 [|y3 [|y4 [|? ?]]]]]; try discriminate.
    destruct m as [|m1 [|m2 [|? ?]]]; try discriminate.
    destruct d as [|d1 [|d2 [|? ?]]]; try discriminate.
    unfold all_digits in *.
    repeat match goal with H : Forall _ (_ :: _) |- _ => inversion H; clear H; subst end.
    simpl. rewrite !andb_true_iff, !is_digit_spec.
    repeat split; (tauto || done).
Qed.

End DatePattern.

(** ** The two validations of [Task] *)

Section Validation.

Lemma description_rejected_str s :
  Task.description_rejected (JStr s) = is_empty (trim s).
Proof.
  unfold Task.description_rejected. simpl.
  destruct s as [|c r]; [reflexivity|]. simpl. reflexivity.
Qed.

Lemma description_rejected_non_string v :
  is_string v = false -> Task.description_rejected v = true.
Proof.
  unfold Task.description_rejected. intros ->. simpl.
  by rewrite orb_true_r.
Qed.

Lemma description_accepted v :
  Task.description_rejected v = false <-> valid_description v.
Proof.
  split.
  - destruct v as [| |b|n|s|o];
      try (by rewrite description_rejected_non_string).
    rewrite description_rejected_str. intros H.
    exists s. split; [done|]. by destruct (trim s).
  - intros (s & -> & Hs). rewrite description_rejected_str.
    by destruct (trim s).
Qed.

Lemma description_refused v :
  Task.description_rejected v = true <-> invalid_description v.
Proof.
  split.
  - intros H. destruct v as [| |b|n|s|o].
    1: by left. 1: by right; left.
    1,2,4: by right; right; left.
    right; right; right. exists s. split; [done|].
    rewrite description_rejected_str in H. by destruct (trim s).
  - intros [-> | [-> | [H | (s & -> & Hs)]]]; try reflexivity.
    + by apply description_rejected_non_string.
    + by rewrite description_rejected_str, Hs.
Qed.

Lemma dueDate_rejected_str s :
  Task.dueDate_rejected (JStr s) = negb (anchored_match date_regex s).
Proof. unfold Task.dueDate_rejected. by destruct s. Qed.

Lemma dueDate_rejected_obj s :
  Task.dueDate_rejected (JObj s) = negb (anchored_match date_regex s).
Proof. reflexivity. Qed.

Lemma dueDate_accepted v :
  Task.dueDate_rejected v = false <-> valid_dueDate v.
Proof.
  unfold valid_dueDate, tested_as. split.
  - destruct v as [| |b|n|s|o]; try (by destruct b); try done.
    + unfold Task.dueDate_rejected. simpl. by rewrite orb_true_r.
    + rewrite dueDate_rejected_str, negb_false_iff, date_regex_yyyy_mm_dd.
      intros H. exists s. by split; [left|].
    + rewrite dueDate_rejected_obj, negb_false_iff, date_regex_yyyy_mm_dd.
      intros H. exists o. by split; [right|].
  - intros (s & [-> | ->] & Hs).
    + by rewrite dueDate_rejected_str, negb_false_iff, date_regex_yyyy_mm_dd.
    + by rewrite dueDate_rejected_obj, negb_false_iff, date_regex_yyyy_mm_dd.
Qed.

Lemma dueDate_refused v :
  Task.dueDate_rejected v = true <-> invalid_dueDate v.
Proof.
  rewrite <- not_false_iff_true, dueDate_accepted.
  unfold invalid_dueDate. split; [tauto|].
  intros [-> | [-> | H]]; [| |done]; intros (s & [? | ?] & _); discriminate.
Qed.

End Validation.

(** ** [addTask] *)

Section AddTask.

Lemma addTask_accepts d dd w :
  Task.description_rejected d = false ->
  Task.dueDate_rejected dd = false ->
  let task := Task.mk (nextId (manager w)) (Task.trim_of d) dd false in
  addTask d dd w =
    (inr task,
     World_mk (mk (tasks (manager w) ++ [task]) (nextId (manager w) + 1))
              (console w)).
Proof.
  intros Hd Hdd. unfold addTask, try_catch, bind, gets, modify, ret.
  unfold Task.constructor. rewrite Hd, Hdd. reflexivity.
Qed.

Lemma addTask_refuses_description d dd w :
  Task.description_rejected d = true ->
  addTask d dd w = (inl TaskDescriptionEmpty, log (ErrorAddingTask TaskDescriptionEmpty) w).
Proof.
  intros Hd. unfold addTask, try_catch, bind, gets, modify, ret, throw.
  unfold Task.constructor. rewrite Hd. reflexivity.
Qed.

Lemma addTask_refuses_dueDate d dd w :
  Task.description_rejected d = false ->
  Task.dueDate_rejected dd = true ->
  addTask d dd w = (inl InvalidDueDate, log (ErrorAddingTask InvalidDueDate) w).
Proof.
  intros Hd Hdd. unfold addTask, try_catch, bind, gets, modify, ret, throw.
  unfold Task.constructor. rewrite Hd, Hdd. reflexivity.
Qed.

(** The three ways [addTask] can end. *)
Lemma addTask_cases d dd w :
  (Task.description_rejected d = false /\ Task.dueDate_rejected dd = false
   /\ addTask d dd w =
        (inr (Task.mk (nextId (manager w)) (Task.trim_of d) dd false),
         World_mk (mk (tasks (manager w)
                       ++ [Task.mk (nextId (manager w)) (Task.trim_of d) dd false])
                      (nextId (manager w) + 1))
                  (console w)))
  \/ (Task.description_rejected d = true
      /\ addTask d dd w = (inl TaskDescriptionEmpty, log (ErrorAddingTask TaskDescriptionEmpty) w))
  \/ (Task.description_rejected d = false /\ Task.dueDate_rejected dd = true
      /\ addTask d dd w = (inl InvalidDueDate, log (ErrorAddingTask InvalidDueDate) w)).
Proof.
  destruct (Task.description_rejected d) eqn:Hd.
  - right; left. split; [done|]. by apply addTask_refuses_description.
  - destruct (Task.dueDate_rejected dd) eqn:Hdd.
    + right; right. repeat split; try done. by apply addTask_refuses_dueDate.
    + left. repeat split; try done. by apply addTask_accepts.
Qed.

End AddTask.

(** C2. For every valid pair (a description that is a string with a
    non-empty trim, a due date of the shape YYYY-MM-DD) [addTask] returns
    a Task whose description is the trimmed input, whose id is the counter
    before the call and whose [completed] is false; the Task is appended
    at the end of the sequence, whose length grows by one, and the counter
    grows by one. *)
Theorem addTask_valid (s d : jsstring) (w : World) :
  trim s <> [] -> yyyy_mm_dd d ->
  exists task w',
    addTask (JStr s) (JStr d) w = (inr task, w')
    /\ Task.description task = trim s
    /\ Task.id task = nextId (manager w)
    /\ Task.completed task = false
    /\ tasks (manager w') = tasks (manager w) ++ [task]
    /\ length (tasks (manager w')) = S (length (tasks (manager w)))
    /\ nextId (manager w') = nextId (manager w) + 1.
Proof.
  intros Hs Hd.
  assert (Task.description_rejected (JStr s) = false) as H1.
  { apply description_accepted. by exists s. }
  assert (Task.dueDate_rejected (JStr d) = false) as H2.
  { apply dueDate_accepted. exists d. by split; [left|]. }
  eexists _, _. split; [by apply addTask_accepts|].
  simpl. repeat split; try reflexivity.
  rewrite length_app. simpl. lia.
Qed.

Lemma addTask_valid_witness :
  trim (utf16 "  Buy milk ") <> [] /\ yyyy_mm_dd (utf16 "2024-08-15")
  /\ exists task w',
      addTask (JStr (utf16 "  Buy milk ")) (JStr (utf16 "2024-08-15")) fresh
        = (inr task, w')
      /\ Task.description task = trim (utf16 "  Buy milk ")
      /\ Task.id task = nextId (manager fresh)
      /\ Task.completed task = false
      /\ tasks (manager w') = tasks (manager fresh) ++ [task]
      /\ length (tasks (manager w')) = S (length (tasks (manager fresh)))
      /\ nextId (manager w') = nextId (manager fresh) + 1.
Proof.
  assert (trim (utf16 "  Buy milk ") <> []) as H1 by (vm_compute; discriminate).
  assert (yyyy_mm_dd (utf16 "2024-08-15")) as H2.
  { exists (utf16 "2024"), (utf16 "08"), (utf16 "15").
    split_and!; try reflexivity; repeat (constructor; [by vm_compute|]); constructor. }
  split; [exact H1|]. split; [exact H2|].
  exact (addTask_valid (utf16 "  Buy milk ") (utf16 "2024-08-15") fresh H1 H2).
Defined.

(** C3, as the spec states it, fails: the due date is tested through
    its conversion to a string and its type is never looked at.  An
    array holding one date string is not text of the shape YYYY-MM-DD,
    yet [addTask] does not raise on it: it returns the task, with the
    array stored as the due date, and the counter moves. *)
Lemma addTask_takes_array :
  valid_description (JStr (utf16 "Report"))
  /\ date_in_array <> JUndefined /\ date_in_array <> JNull
  /\ ~ text_dueDate date_in_array
  /\ addTask (JStr (utf16 "Report")) date_in_array fresh
     = (inr report_with_array, World_mk (mk [report_with_array] 2) []).
Proof.
  split_and!; try done.
  - exists (utf16 "Report"). split; [done|]. vm_compute. discriminate.
  - intros (s & [=] & _).
Qed.

(** C3, amended.  [addTask] raises a validation error exactly when the
    description is missing, not a string or trims to empty, or the due
    date is missing or the text it is tested as (the value itself for a
    string, its string conversion for an object) does not match
    YYYY-MM-DD; whenever it raises, the counter and the length of the
    collection are unchanged. *)
Theorem addTask_invalid (d dd : JsVal) (w : World) :
  ((exists e, (addTask d dd w).1 = inl e /\ kind_of e = ValidationError)
   <-> invalid_description d \/ invalid_dueDate dd)
  /\ (forall e, (addTask d dd w).1 = inl e ->
        kind_of e = ValidationError
        /\ nextId (manager (addTask d dd w).2) = nextId (manager w)
        /\ length (tasks (manager (addTask d dd w).2)) = length (tasks (manager w))).
Proof.
  rewrite <- description_refused, <- dueDate_refused.
  destruct (addTask_cases d dd w) as [(Hd & Hdd & ->) | [(Hd & ->) | (Hd & Hdd & ->)]];
    simpl; (split; [split|]).
  - intros (e & He & _). discriminate.
  - intros [H | H]; congruence.
  - intros e He. discriminate.
  - intros _. by left.
  - intros _. by exists TaskDescriptionEmpty.
  - intros e [= <-]. done.
  - intros _. by right.
  - intros _. by exists InvalidDueDate.
  - intros e [= <-]. done.
Qed.

Lemma addTask_invalid_witness :
  (addTask (JStr (utf16 "   ")) (JStr (utf16 "2024-08-15")) fresh).1
  = inl TaskDescriptionEmpty
  /\ kind_of TaskDescriptionEmpty = ValidationError
  /\ nextId (manager (addTask (JStr (utf16 "   ")) (JStr (utf16 "2024-08-15")) fresh).2)
     = nextId (manager fresh)
  /\ length (tasks (manager (addTask (JStr (utf16 "   "))
                                     (JStr (utf16 "2024-08-15")) fresh).2))
     = length (tasks (manager fresh)).
Proof.
  split; [reflexivity|].
  exact (proj2 (addTask_invalid (JStr (utf16 "   ")) (JStr (utf16 "2024-08-15")) fresh)
           TaskDescriptionEmpty eq_refl).
Defined.

(** ** Looking a task up *)


Section Find.

Implicit Types (l : list Task.t) (p : Task.t -> bool).

Lemma has_id_true taskId task :
  has_id taskId task = true <-> taskId = JNum (NInt (Task.id task)).
Proof.
  unfold has_id, strict_equals_int.
  destruct taskId as [| |b|[z| |]|s|o]; try (split; [discriminate | congruence]).
  rewrite Z.eqb_eq. split; [by intros -> | congruence].
Qed.

Lemma has_id_int z task : has_id (JNum (NInt z)) task = true <-> Task.id task = z.
Proof. rewrite has_id_true. split; [congruence | by intros ->]. Qed.

Lemma has_id_not_integer taskId task :
  is_integer taskId = false -> has_id taskId task = false.
Proof. by destruct taskId as [| |b|[z| |]|s|o]. Qed.

Lemma find_Some p l i task :
  find p l = Some (i, task) <->
    l !! i = Some task /\ p task = true
    /\ forall j task', l !! j = Some task' -> (j < i)%nat -> p task' = false.
Proof.
  unfold find. split.
  - intros (Hi & Hp & Hfirst)%list_find_Some. split_and!; [done| |].
    + by apply Is_true_true.
    + intros j task' Hj Hlt. apply Is_true_false. by eapply Hfirst.
  - intros (Hi & Hp & Hfirst). apply list_find_Some. split_and!; [done| |].
    + by apply Is_true_true.
    + intros j task' Hj Hlt. apply Is_true_false. by eapply Hfirst.
Qed.

Lemma find_None p l :
  find p l = None <-> forall task, task ∈ l -> p task = false.
Proof.
  unfold find. split.
  - intros H%list_find_None task Hin. rewrite Forall_forall in H.
    apply Is_true_false. by apply H.
  - intros H. apply list_find_None, Forall_forall. intros task Hin.
    apply Is_true_false. by apply H.
Qed.

Lemma findIndex_find p l : findIndex p l = fst <$> find p l.
Proof. reflexivity. Qed.

Lemma find_not_integer taskId l :
  is_integer taskId = false -> find (has_id taskId) l = None.
Proof. intros H. apply find_None. intros task _. by apply has_id_not_integer. Qed.

Lemma is_number_integer taskId : is_number taskId = false -> is_integer taskId = false.
Proof. by destruct taskId as [| |b|[z| |]|s|o]. Qed.

(** [_findTaskById] in one equation: the first task with the id, and a
    warning on the console when the argument is not a number. *)
Lemma findTaskById_run taskId w :
  _findTaskById taskId w =
    (inr (find (has_id taskId) (tasks (manager w))),
     if is_number taskId then w else log (NonNumericId taskId) w).
Proof.
  unfold _findTaskById. destruct (is_number taskId) eqn:E; simpl; [done|].
  unfold bind, modify, ret. by rewrite find_not_integer by by apply is_number_integer.
Qed.

Lemma find_Some_number taskId l ref :
  find (has_id taskId) l = Some ref -> is_number taskId = true.
Proof.
  destruct ref as [i task]. intros (_ & H & _)%find_Some.
  apply has_id_true in H. by subst.
Qed.

Lemma set_tasks_same w : set_tasks (tasks (manager w)) w = w.
Proof. by destruct w as [[l n] c]. Qed.

End Find.

(** C7. The lookup never raises: for an argument that is not an integer
    it returns not-found; for an integer it returns the first task in
    sequence order with that id, or not-found when no stored task has it. *)
Theorem findTaskById_never_throws (taskId : JsVal) (w : World) :
  exists r w',
    _findTaskById taskId w = (inr r, w')
    /\ manager w' = manager w
    /\ (is_integer taskId = false -> r = None)
    /\ (forall z, taskId = JNum (NInt z) ->
          match r with
          | Some (i, task) =>
              tasks (manager w) !! i = Some task /\ Task.id task = z
              /\ forall j task', tasks (manager w) !! j = Some task' ->
                                 (j < i)%nat -> Task.id task' <> z
          | None => forall task, task ∈ tasks (manager w) -> Task.id task <> z
          end).
Proof.
  eexists _, _. split; [apply findTaskById_run|]. split; [by destruct (is_number taskId)|].
  split; [apply find_not_integer|].
  intros z ->. destruct (find _ _) as [[i task]|] eqn:E.
  - apply find_Some in E as (Hi & Hid & Hfirst). apply has_id_int in Hid.
    repeat split; try done. intros j task' Hj Hlt Heq.
    specialize (Hfirst j task' Hj Hlt). apply has_id_int in Heq. congruence.
  - intros task Hin Heq. apply has_id_int in Heq.
    rewrite find_None in E. specialize (E task Hin). congruence.
Qed.

(** ** [markTaskComplete] and [markTaskIncomplete] *)

Section Mark.

Lemma markTaskComplete_run taskId w :
  markTaskComplete taskId w =
    match find (has_id taskId) (tasks (manager w)) with
    | Some (i, task) =>
        (inr (Task.set_completed true task),
         set_tasks (<[i := Task.set_completed true task]> (tasks (manager w))) w)
    | None =>
        (inl (TaskNotFound taskId MarkAsComplete),
         if is_number taskId then w else log (NonNumericId taskId) w)
    end.
Proof.
  unfold markTaskComplete, bind at 1. rewrite findTaskById_run.
  destruct (find _ _) as [[i task]|] eqn:E; [|done].
  by rewrite (find_Some_number _ _ _ E).
Qed.

Lemma markTaskIncomplete_run taskId w :
  markTaskIncomplete taskId w =
    match find (has_id taskId) (tasks (manager w)) with
    | Some (i, task) =>
        (inr (Task.set_completed false task),
         set_tasks (<[i := Task.set_completed false task]> (tasks (manager w))) w)
    | None =>
        (inl (TaskNotFound taskId MarkAsIncomplete),
         if is_number taskId then w else log (NonNumericId taskId) w)
    end.
Proof.
  unfold markTaskIncomplete, bind at 1. rewrite findTaskById_run.
  destruct (find _ _) as [[i task]|] eqn:E; [|done].
  by rewrite (find_Some_number _ _ _ E).
Qed.


Lemma mark_only_flag taskId b w i task :
  find (has_id taskId) (tasks (manager w)) = Some (i, task) ->
  only_flag_changed taskId b w
    (set_tasks (<[i := Task.set_completed b task]> (tasks (manager w))) w)
    (Task.set_completed b task).
Proof.
  intros (Hi & Hid & Hfirst)%find_Some. exists i, task.
  apply has_id_true in Hid. split_and!; try done.
  - intros j task' Hj Hlt Heq. apply has_id_true in Heq.
    specialize (Hfirst j task' Hj Hlt). congruence.
  - simpl. apply list_lookup_insert_eq. by eapply lookup_lt_Some.
  - intros j Hj. simpl. by apply list_lookup_insert_ne.
  - simpl. apply length_insert.
Qed.

End Mark.

(** C10. When [markTaskComplete] or [markTaskIncomplete] succeeds, the
    only change to the manager is the [completed] flag of the task with
    the given id: its id, description and due date, every other task,
    the length and order of the sequence and the counter are unchanged. *)
Theorem mark_frame (taskId : JsVal) (w w' : World) (returned : Task.t) :
  (markTaskComplete taskId w = (inr returned, w') ->
     only_flag_changed taskId true w w' returned)
  /\ (markTaskIncomplete taskId w = (inr returned, w') ->
     only_flag_changed taskId false w w' returned).
Proof.
  rewrite markTaskComplete_run, markTaskIncomplete_run.
  destruct (find _ _) as [[i task]|] eqn:E.
  - split; intros [= <- <-]; by apply mark_only_flag.
  - split; discriminate.
Qed.

Lemma mark_frame_witness :
  markTaskComplete (JNum (NInt 1)) two_tasks
  = (inr (buy_milk true), World_mk (mk [buy_milk true; report] 3) [])
  /\ only_flag_changed (JNum (NInt 1)) true two_tasks
       (World_mk (mk [buy_milk true; report] 3) []) (buy_milk true).
Proof.
  split; [reflexivity|].
  exact (proj1 (mark_frame (JNum (NInt 1)) two_tasks
                  (World_mk (mk [buy_milk true; report] 3) []) (buy_milk true))
           eq_refl).
Defined.

(** ** [listTasks] *)


Lemma merge_of_length {A} (l1 l2 l : list A) :
  merge_of l1 l2 l -> length l = (length l1 + length l2)%nat.
Proof. induction 1; simpl; lia. Qed.


Section ListTasks.

Lemma listTasks_all w :
  listTasks (Some (utf16 "all")) w = (inr (tasks (manager w)), w).
Proof. reflexivity. Qed.

Lemma listTasks_completed w :
  listTasks (Some (utf16 "completed")) w = (inr (completed_tasks (tasks (manager w))), w).
Proof. reflexivity. Qed.

Lemma listTasks_pending w :
  listTasks (Some (utf16 "pending")) w = (inr (pending_tasks (tasks (manager w))), w).
Proof. reflexivity. Qed.

Lemma listTasks_default w : listTasks None w = listTasks (Some (utf16 "all")) w.
Proof. reflexivity. Qed.

(** The outcome depends on the lower-cased argument only, except for
    the value quoted in the error. *)
Lemma listTasks_run f w :
  listTasks (Some f) w =
    if bool_decide (toLowerCase f = utf16 "all") then
      (inr (tasks (manager w)), w)
    else if bool_decide (toLowerCase f = utf16 "completed") then
      (inr (completed_tasks (tasks (manager w))), w)
    else if bool_decide (toLowerCase f = utf16 "pending") then
      (inr (pending_tasks (tasks (manager w))), w)
    else (inl (InvalidFilterStatus f), w).
Proof.
  unfold listTasks. cbn [from_option]. unfold id.
  repeat (case_bool_decide; [reflexivity|]). reflexivity.
Qed.

Lemma listTasks_state f w : (listTasks f w).2 = w.
Proof.
  destruct f as [f|]; [|reflexivity].
  rewrite listTasks_run. repeat (case_bool_decide; [reflexivity|]). reflexivity.
Qed.

Lemma completed_pending_merge l :
  merge_of (completed_tasks l) (pending_tasks l) l.
Proof.
  unfold completed_tasks, pending_tasks.
  induction l as [|task l IH]; [constructor|].
  rewrite !filter_cons. destruct (Task.completed task); simpl; by constructor.
Qed.

Lemma elem_of_completed task l :
  task ∈ completed_tasks l <-> Task.completed task = true /\ task ∈ l.
Proof. unfold completed_tasks. by rewrite list_elem_of_filter, Is_true_true. Qed.

Lemma elem_of_pending task l :
  task ∈ pending_tasks l <-> Task.completed task = false /\ task ∈ l.
Proof.
  unfold pending_tasks.
  by rewrite list_elem_of_filter, Is_true_true, negb_true_iff.
Qed.

End ListTasks.

Example lower_ALL : toLowerCase (utf16 "ALL") = utf16 "all".
Proof. reflexivity. Qed.

Example lower_Completed : toLowerCase (utf16 "Completed") = utf16 "completed".
Proof. reflexivity. Qed.

Example lower_PeNdInG : toLowerCase (utf16 "PeNdInG") = utf16 "pending".
Proof. reflexivity. Qed.

(** C4. In every manager state the "completed" and the "pending" listing
    partition the collection: every stored task is in exactly one of
    them, each keeps the order of the sequence, and their
    order-preserving merge is the "all" listing. *)
Theorem listTasks_partition (w : World) :
  exists all completed pending,
    listTasks (Some (utf16 "all")) w = (inr all, w)
    /\ listTasks (Some (utf16 "completed")) w = (inr completed, w)
    /\ listTasks (Some (utf16 "pending")) w = (inr pending, w)
    /\ all = tasks (manager w)
    /\ (forall task, task ∈ all ->
          ((task ∈ completed) /\ (task ∉ pending))
          \/ ((task ∉ completed) /\ (task ∈ pending)))
    /\ (forall task, (task ∈ completed) \/ (task ∈ pending) -> task ∈ all)
    /\ completed `sublist_of` all
    /\ pending `sublist_of` all
    /\ merge_of completed pending all
    /\ length all = (length completed + length pending)%nat.
Proof.
  exists (tasks (manager w)), (completed_tasks (tasks (manager w))),
    (pending_tasks (tasks (manager w))).
  split_and!; try reflexivity.
  - intros task Hin. rewrite !elem_of_completed, !elem_of_pending.
    destruct (Task.completed task); [left | right]; (split; [|]); try tauto;
      intros [? _]; discriminate.
  - intros task. rewrite elem_of_completed, elem_of_pending. tauto.
  - apply sublist_filter.
  - apply sublist_filter.
  - apply completed_pending_merge.
  - apply merge_of_length, completed_pending_merge.
Qed.

(** C5. [listTasks] reads its filter case-insensitively: a filter whose
    lower-case form is "all", "completed" or "pending" gives that
    listing; any other filter fails with an error whose message quotes
    the value as given; the state is unchanged in every case. *)
Theorem listTasks_filter (filterStatus : jsstring) (w : World) :
  (toLowerCase filterStatus = utf16 "all" ->
     listTasks (Some filterStatus) w = (inr (tasks (manager w)), w))
  /\ (toLowerCase filterStatus = utf16 "completed" ->
     listTasks (Some filterStatus) w = (inr (completed_tasks (tasks (manager w))), w))
  /\ (toLowerCase filterStatus = utf16 "pending" ->
     listTasks (Some filterStatus) w = (inr (pending_tasks (tasks (manager w))), w))
  /\ (toLowerCase filterStatus <> utf16 "all" ->
      toLowerCase filterStatus <> utf16 "completed" ->
      toLowerCase filterStatus <> utf16 "pending" ->
      listTasks (Some filterStatus) w = (inl (InvalidFilterStatus filterStatus), w)
      /\ exists before after,
           invalid_filter_message filterStatus = before ++ filterStatus ++ after)
  /\ (forall other,
        toLowerCase other = toLowerCase filterStatus ->
        match (listTasks (Some other) w).1, (listTasks (Some filterStatus) w).1 with
        | inr listed', inr listed => listed' = listed
        | inl (InvalidFilterStatus quoted'), inl (InvalidFilterStatus quoted) =>
            quoted' = other /\ quoted = filterStatus
        | _, _ => False
        end)
  /\ (listTasks (Some filterStatus) w).2 = w.
Proof.
  split_and!.
  - rewrite listTasks_run. intros ->. reflexivity.
  - rewrite listTasks_run. intros ->. reflexivity.
  - rewrite listTasks_run. intros ->. reflexivity.
  - rewrite listTasks_run. intros H1 H2 H3. rewrite !bool_decide_eq_false_2 by done.
    split; [done|]. unfold invalid_filter_message.
    eexists _, _. rewrite (app_assoc _ [double_quote]). reflexivity.
  - intros other Heq. rewrite !listTasks_run, Heq.
    repeat (case_bool_decide; [reflexivity|]). by cbn.
  - apply listTasks_state.
Qed.

Lemma listTasks_filter_witness :
  toLowerCase (utf16 "PeNdInG") = utf16 "pending"
  /\ listTasks (Some (utf16 "PeNdInG")) two_tasks
     = (inr (pending_tasks (tasks (manager two_tasks))), two_tasks).
Proof.
  split; [reflexivity|].
  exact (proj1 (proj2 (proj2 (listTasks_filter (utf16 "PeNdInG") two_tasks))) eq_refl).
Defined.

(** ** [deleteTask] and [updateTask] *)

Section DeleteUpdate.

Lemma deleteTask_run taskId w :
  deleteTask taskId w =
    match find (has_id taskId) (tasks (manager w)) with
    | Some (i, _) => (inr true, set_tasks (delete i (tasks (manager w))) w)
    | None => (inl (TaskNotFound taskId Delete), w)
    end.
Proof.
  unfold deleteTask, bind, gets. rewrite findIndex_find.
  by destruct (find _ _) as [[i task]|].
Qed.

Lemma updateTask_run taskId u w :
  updateTask taskId u w =
    match find (has_id taskId) (tasks (manager w)) with
    | Some ref => on_task ref (update_found u) w
    | None =>
        (inl (TaskNotFound taskId Update),
         if is_number taskId then w else log (NonNumericId taskId) w)
    end.
Proof.
  unfold updateTask, bind at 1. rewrite findTaskById_run.
  destruct (find _ _) as [ref|] eqn:E; [|done].
  by rewrite (find_Some_number _ _ _ E).
Qed.

Lemma update_found_run u task :
  update_found u task =
    match upd_description u with
    | Some d =>
        if Task.description_rejected d then (inl NewTaskDescriptionEmpty, task)
        else
          let task1 := Task.set_description (Task.trim_of d) task in
          match upd_dueDate u with
          | Some dd =>
              if Task.dueDate_rejected dd then (inl InvalidNewDueDate, task1)
              else (inr (Task.set_dueDate dd task1), Task.set_dueDate dd task1)
          | None => (inr task1, task1)
          end
    | None =>
        match upd_dueDate u with
        | Some dd =>
            if Task.dueDate_rejected dd then (inl InvalidNewDueDate, task)
            else (inr (Task.set_dueDate dd task), Task.set_dueDate dd task)
        | None => (inr task, task)
        end
    end.
Proof.
  unfold update_found, bind, Task.updateDescription, Task.updateDueDate.
  destruct u as [[d|] [dd|]]; simpl;
    try destruct (Task.description_rejected d);
    try destruct (Task.dueDate_rejected dd); reflexivity.
Qed.

End DeleteUpdate.

(** ** Errors and the state they leave *)

(** C1, as the spec states it, fails: [updateTask] with a valid
    description and an invalid due date raises after the description has
    been written.  On a manager with the single task 1, the call raises
    the due-date error and leaves the task with the new description. *)
Lemma updateTask_keeps_half_update :
  mutating (UpdateTask (JNum (NInt 1)) half_valid) = true
  /\ thrown (UpdateTask (JNum (NInt 1)) half_valid) one_task = Some InvalidNewDueDate
  /\ manager one_task
     = mk [Task.mk 1 (utf16 "Old description") (JStr (utf16 "2024-12-01")) false] 2
  /\ manager (exec (UpdateTask (JNum (NInt 1)) half_valid) one_task)
     = mk [Task.mk 1 (utf16 "New description") (JStr (utf16 "2024-12-01")) false] 2
  /\ manager (exec (UpdateTask (JNum (NInt 1)) half_valid) one_task) <> manager one_task.
Proof.
  split_and!; try (vm_compute; reflexivity).
  vm_compute. discriminate.
Qed.

Section ErrorState.

Lemma manager_warned taskId w :
  manager (if is_number taskId then w else log (NonNumericId taskId) w) = manager w.
Proof. by destruct (is_number taskId). Qed.

Lemma manager_insert_id w i task :
  tasks (manager w) !! i = Some task ->
  mk (<[i := task]> (tasks (manager w))) (nextId (manager w)) = manager w.
Proof. intros H. rewrite list_insert_id by done. by destruct w as [[l n] c]. Qed.

End ErrorState.

(** C1, amended.  When a mutating manager operation raises, the manager
    is exactly as before the call, with one exception: an [updateTask]
    that carries both an accepted description and a refused due date and
    finds its task raises the due-date error with the description of
    that task already replaced by the trimmed new one (and nothing else
    changed). *)
Theorem error_keeps_state (c : Call) (w : World) (e : Error) :
  mutating c = true ->
  thrown c w = Some e ->
  match accepted_then_refused c with
  | None => manager (exec c w) = manager w
  | Some (taskId, d) =>
      (e = TaskNotFound taskId Update /\ manager (exec c w) = manager w)
      \/ (e = InvalidNewDueDate
          /\ exists i task,
               find (has_id taskId) (tasks (manager w)) = Some (i, task)
               /\ manager (exec c w)
                  = mk (<[i := Task.set_description (Task.trim_of d) task]>
                          (tasks (manager w)))
                       (nextId (manager w)))
  end.
Proof.
  intros Hm. unfold thrown, exec.
  destruct c as [d dd|taskId|taskId|taskId|f|taskId|taskId u|i tc];
    try discriminate Hm; cbn [call accepted_then_refused].
  - destruct (addTask_cases d dd w) as [(_ & _ & ->) | [(_ & ->) | (_ & _ & ->)]];
      cbn; intros; (discriminate || reflexivity).
  - rewrite markTaskComplete_run.
    destruct (find _ _) as [[i task]|]; cbn; [discriminate|].
    intros _. apply manager_warned.
  - rewrite markTaskIncomplete_run.
    destruct (find _ _) as [[i task]|]; cbn; [discriminate|].
    intros _. apply manager_warned.
  - rewrite deleteTask_run.
    destruct (find _ _) as [[i task]|]; cbn; [discriminate|]. done.
  - rewrite updateTask_run.
    destruct (find _ _) as [[i task]|] eqn:E.
    + pose proof E as (Hi & _)%find_Some.
      unfold on_task. cbn [fst snd]. rewrite update_found_run.
      destruct u as [[d|] [dd|]]; cbn [upd_description upd_dueDate];
        try destruct (Task.description_rejected d) eqn:Hd;
        try destruct (Task.dueDate_rejected dd) eqn:Hdd;
        cbn; try discriminate;
        try (intros _; by apply manager_insert_id).
      intros [= <-]. right. split; [done|]. by exists i, task.
    + cbn. intros [= <-].
      destruct u as [[d|] [dd|]]; try apply manager_warned.
      destruct (negb _ && _); [|apply manager_warned].
      left. split; [done | apply manager_warned].
Qed.

Lemma error_keeps_state_witness :
  mutating (UpdateTask (JNum (NInt 1)) half_valid) = true
  /\ thrown (UpdateTask (JNum (NInt 1)) half_valid) one_task = Some InvalidNewDueDate
  /\ ((InvalidNewDueDate = TaskNotFound (JNum (NInt 1)) Update
       /\ manager (exec (UpdateTask (JNum (NInt 1)) half_valid) one_task) = manager one_task)
      \/ (InvalidNewDueDate = InvalidNewDueDate
          /\ exists i task,
               find (has_id (JNum (NInt 1))) (tasks (manager one_task)) = Some (i, task)
               /\ manager (exec (UpdateTask (JNum (NInt 1)) half_valid) one_task)
                  = mk (<[i := Task.set_description
                                  (Task.trim_of (JStr (utf16 "New description"))) task]>
                          (tasks (manager one_task)))
                       (nextId (manager one_task)))).
Proof.
  split; [reflexivity|]. split; [reflexivity|].
  exact (error_keeps_state (UpdateTask (JNum (NInt 1)) half_valid) one_task
           InvalidNewDueDate eq_refl eq_refl).
Defined.

(** ** The due-date check *)

Section DueDate.

Lemma dueDate_rejected_iff s :
  Task.dueDate_rejected (JStr s) = false <-> yyyy_mm_dd s.
Proof.
  by rewrite dueDate_rejected_str, negb_false_iff, date_regex_yyyy_mm_dd.
Qed.

Lemma dueDate_rejected_not s :
  ~ yyyy_mm_dd s -> Task.dueDate_rejected (JStr s) = true.
Proof. rewrite <- dueDate_rejected_iff. by destruct (Task.dueDate_rejected _). Qed.

End DueDate.

(** C6. The due-date validation of the Task constructor, of
    [updateDueDate] and of [updateTask] is purely syntactic: every string
    of the shape four digits, dash, two digits, dash, two digits is
    accepted and stored as it is (a month 13 or a day 32 included), and
    every other string is rejected with a validation error. *)
Theorem dueDate_check_is_syntactic :
  yyyy_mm_dd (utf16 "2024-13-32")
  /\ (forall s id d c,
        valid_description d ->
        (yyyy_mm_dd s ->
           Task.constructor id d (JStr s) c
           = inr (Task.mk id (Task.trim_of d) (JStr s) (default false c)))
        /\ (~ yyyy_mm_dd s ->
           Task.constructor id d (JStr s) c = inl InvalidDueDate
           /\ kind_of InvalidDueDate = ValidationError))
  /\ (forall s task,
        (yyyy_mm_dd s ->
           Task.updateDueDate (JStr s) task = (inr tt, Task.set_dueDate (JStr s) task)
           /\ Task.dueDate (Task.set_dueDate (JStr s) task) = JStr s)
        /\ (~ yyyy_mm_dd s ->
           Task.updateDueDate (JStr s) task = (inl InvalidNewDueDate, task)
           /\ kind_of InvalidNewDueDate = ValidationError))
  /\ (forall s taskId od w i task,
        find (has_id taskId) (tasks (manager w)) = Some (i, task) ->
        (forall d, od = Some d -> valid_description d) ->
        (yyyy_mm_dd s ->
           exists task' w',
             updateTask taskId {| upd_description := od; upd_dueDate := Some (JStr s) |} w
             = (inr task', w')
             /\ Task.dueDate task' = JStr s
             /\ tasks (manager w') !! i = Some task')
        /\ (~ yyyy_mm_dd s ->
           exists task' w',
             updateTask taskId {| upd_description := od; upd_dueDate := Some (JStr s) |} w
             = (inl InvalidNewDueDate, w')
             /\ tasks (manager w') !! i = Some task'
             /\ Task.dueDate task' = Task.dueDate task)).
Proof.
  split_and!.
  - apply date_regex_yyyy_mm_dd. reflexivity.
  - intros s id d c Hd%description_accepted. unfold Task.constructor. rewrite Hd.
    split.
    + intros Hs%dueDate_rejected_iff. by rewrite Hs.
    + intros Hs%dueDate_rejected_not. by rewrite Hs.
  - intros s task. unfold Task.updateDueDate. split.
    + intros Hs%dueDate_rejected_iff. by rewrite Hs.
    + intros Hs%dueDate_rejected_not. by rewrite Hs.
  - intros s taskId od w i task E Hod.
    pose proof E as (Hi & _)%find_Some. apply lookup_lt_Some in Hi.
    rewrite updateTask_run, E. unfold on_task. cbn [fst snd].
    rewrite update_found_run. cbn [upd_description upd_dueDate].
    assert (match od with Some d => Task.description_rejected d = false | None => True end)
      as Hd.
    { destruct od as [d|]; [|done]. by apply description_accepted, Hod. }
    split.
    + intros Hs%dueDate_rejected_iff. rewrite Hs.
      destruct od as [d|]; [rewrite Hd|]; cbn; eexists _, _;
        (split; [reflexivity|]); (split; [reflexivity|]);
        by apply list_lookup_insert_eq.
    + intros Hs%dueDate_rejected_not. rewrite Hs.
      destruct od as [d|]; [rewrite Hd|]; cbn; eexists _, _;
        (split; [reflexivity|]); (split; [by apply list_lookup_insert_eq|]);
        reflexivity.
Qed.

Lemma dueDate_check_is_syntactic_witness :
  valid_description (JStr (utf16 "Report"))
  /\ yyyy_mm_dd (utf16 "2024-13-32")
  /\ Task.constructor 7 (JStr (utf16 "Report")) (JStr (utf16 "2024-13-32")) None
     = inr (Task.mk 7 (utf16 "Report") (JStr (utf16 "2024-13-32")) false).
Proof.
  assert (valid_description (JStr (utf16 "Report"))) as Hd.
  { exists (utf16 "Report"). split; [reflexivity | vm_compute; discriminate]. }
  split; [exact Hd|].
  split; [exact (proj1 dueDate_check_is_syntactic)|].
  exact (proj1 (proj1 (proj2 dueDate_check_is_syntactic)
                  (utf16 "2024-13-32") 7 (JStr (utf16 "Report")) None Hd)
           (proj1 dueDate_check_is_syntactic)).
Defined.

(** ** Invariants *)

Section TaskInvariant.

Lemma task_ok_fields task task' :
  Task.description task' = Task.description task ->
  Task.dueDate task' = Task.dueDate task ->
  task_ok task -> task_ok task'.
Proof. unfold task_ok. by intros -> ->. Qed.

Lemma trim_of_ok d :
  Task.description_rejected d = false ->
  Task.trim_of d <> [] /\ trim (Task.trim_of d) = Task.trim_of d
  /\ ~ whitespace_only (Task.trim_of d).
Proof.
  intros (s & -> & Hs)%description_accepted. simpl.
  assert (trim (trim s) = trim s) as Hi by apply trim_idem.
  split_and!; try done. by apply trimmed_not_whitespace_only.
Qed.

Lemma constructor_ok id d dd c task :
  Task.constructor id d dd c = inr task -> task_ok task /\ Task.id task = id.
Proof.
  unfold Task.constructor.
  destruct (Task.description_rejected d) eqn:Hd; [discriminate|].
  destruct (Task.dueDate_rejected dd) eqn:Hdd; [discriminate|].
  intros [= <-]. split; [|done].
  destruct (trim_of_ok d Hd) as (? & ? & ?).
  apply dueDate_accepted in Hdd. by split_and!.
Qed.

Lemma task_call_id c task : Task.id (task_call c task).2 = Task.id task.
Proof.
  destruct c as [| |v|v]; simpl; try reflexivity.
  - unfold Task.updateDescription. by destruct (Task.description_rejected v).
  - unfold Task.updateDueDate. by destruct (Task.dueDate_rejected v).
Qed.

Lemma task_call_ok c task : task_ok task -> task_ok (task_call c task).2.
Proof.
  intros Hok. destruct c as [| |v|v]; simpl.
  - by apply (task_ok_fields task).
  - by apply (task_ok_fields task).
  - unfold Task.updateDescription.
    destruct (Task.description_rejected v) eqn:Hv; [done|].
    destruct (trim_of_ok v Hv) as (? & ? & ?).
    destruct Hok as (_ & _ & _ & ?). by split_and!.
  - unfold Task.updateDueDate.
    destruct (Task.dueDate_rejected v) eqn:Hv; [done|].
    apply dueDate_accepted in Hv.
    destruct Hok as (? & ? & ? & _). by split_and!.
Qed.

(** [update_found] ends where the Task methods it calls end. *)
Lemma update_found_state u task :
  (update_found u task).2 = task
  \/ (exists d, (update_found u task).2 = (task_call (UpdateDescription d) task).2)
  \/ (exists dd, (update_found u task).2 = (task_call (UpdateDueDate dd) task).2)
  \/ (exists d dd,
        (update_found u task).2
        = (task_call (UpdateDueDate dd) (task_call (UpdateDescription d) task).2).2).
Proof.
  rewrite update_found_run. cbn [task_call].
  unfold Task.updateDescription, Task.updateDueDate.
  destruct u as [[d|] [dd|]]; cbn [upd_description upd_dueDate].
  - destruct (Task.description_rejected d) eqn:Hd; [by left|].
    destruct (Task.dueDate_rejected dd) eqn:Hdd.
    + right; left. exists d. by rewrite Hd.
    + right; right; right. exists d, dd. by rewrite Hd, Hdd.
  - destruct (Task.description_rejected d) eqn:Hd; [by left|].
    right; left. exists d. by rewrite Hd.
  - destruct (Task.dueDate_rejected dd) eqn:Hdd; [by left|].
    right; right; left. exists dd. by rewrite Hdd.
  - by left.
Qed.

Lemma update_found_id u task : Task.id (update_found u task).2 = Task.id task.
Proof.
  destruct (update_found_state u task) as [-> | [(d & ->) | [(dd & ->) | (d & dd & ->)]]];
    by rewrite ?task_call_id.
Qed.

Lemma update_found_ok u task : task_ok task -> task_ok (update_found u task).2.
Proof.
  intros Hok.
  destruct (update_found_state u task) as [-> | [(d & ->) | [(dd & ->) | (d & dd & ->)]]];
    auto using task_call_ok.
Qed.

End TaskInvariant.

Section ManagerInvariant.

(** Every call changes the manager in one of the four ways. *)
Lemma exec_step c w : manager_step (manager w) (manager (exec c w)).
Proof.
  unfold exec.
  destruct c as [d dd|taskId|taskId|taskId|f|taskId|taskId u|i tc]; cbn [call forget snd].
  - destruct (addTask_cases d dd w) as [(Hd & Hdd & ->) | [(_ & ->) | (_ & _ & ->)]];
      [|by apply step_same..].
    eapply step_add; [| |reflexivity]; [reflexivity|].
    eapply constructor_ok with (c := None). unfold Task.constructor.
    by rewrite Hd, Hdd.
  - rewrite findTaskById_run. apply step_same, manager_warned.
  - rewrite markTaskComplete_run.
    destruct (find _ _) as [[i task]|] eqn:E; [|apply step_same, manager_warned].
    apply find_Some in E as (Hi & _).
    apply (step_change _ _ i task (Task.set_completed true task));
      [done|reflexivity| |reflexivity].
    by apply task_ok_fields.
  - rewrite markTaskIncomplete_run.
    destruct (find _ _) as [[i task]|] eqn:E; [|apply step_same, manager_warned].
    apply find_Some in E as (Hi & _).
    apply (step_change _ _ i task (Task.set_completed false task));
      [done|reflexivity| |reflexivity].
    by apply task_ok_fields.
  - rewrite listTasks_state. by apply step_same.
  - rewrite deleteTask_run.
    destruct (find _ _) as [[i task]|]; [|by apply step_same].
    by apply (step_delete _ _ i).
  - rewrite updateTask_run.
    destruct (find _ _) as [[i task]|] eqn:E; [|apply step_same, manager_warned].
    apply find_Some in E as (Hi & _).
    unfold on_task. cbn [fst snd].
    destruct (update_found u task) as [r task'] eqn:U.
    apply (step_change _ _ i task task'); [done| | |reflexivity].
    + change task' with (r, task').2. rewrite <- U. apply update_found_id.
    + change task' with (r, task').2. rewrite <- U. apply update_found_ok.
  - destruct (tasks (manager w) !! i) as [task|] eqn:Hi; [|by apply step_same].
    unfold on_task. cbn [fst snd].
    destruct (task_call tc task) as [r task'] eqn:U.
    apply (step_change _ _ i task task'); [done| | |reflexivity].
    + change task' with (r, task').2. rewrite <- U. apply task_call_id.
    + change task' with (r, task').2. rewrite <- U. apply task_call_ok.
Qed.

Lemma step_tasks_ok m m' :
  manager_step m m' -> Forall task_ok (tasks m) -> Forall task_ok (tasks m').
Proof.
  intros [-> | task _ Hok -> | i task task' Hi _ Hok -> | i ->] H; simpl.
  - done.
  - apply Forall_app. split; [done|]. by constructor.
  - apply Forall_insert; [done|]. apply Hok.
    by eapply (Forall_lookup_1 _ _ _ _ H).
  - by apply Forall_delete.
Qed.

Lemma step_nextId m m' : manager_step m m' -> nextId m <= nextId m'.
Proof. intros [-> | task _ _ -> | i task task' _ _ _ -> | i ->]; simpl; lia. Qed.

Lemma step_ids_ok w w' :
  manager_step (manager w) (manager w') -> ids_ok w -> ids_ok w'.
Proof.
  unfold ids_ok, ids.
  intros [-> | task Hid _ -> | i task task' Hi Hid _ -> | i ->] [Hnd Hlt]; simpl.
  - done.
  - rewrite fmap_app. simpl. split.
    + apply NoDup_app. split_and!; [done| |apply NoDup_singleton].
      intros x Hx ->%list_elem_of_singleton.
      rewrite Forall_forall in Hlt. specialize (Hlt _ Hx). lia.
    + apply Forall_app. split.
      * eapply Forall_impl; [exact Hlt|]. simpl. intros; lia.
      * constructor; [lia | constructor].
  - rewrite list_fmap_insert, Hid, list_insert_id; [done|].
    by rewrite list_lookup_fmap, Hi.
  - rewrite list_fmap_delete. split.
    + eapply sublist_NoDup; [done | apply sublist_delete].
    + by apply Forall_delete.
Qed.

Lemma run_cons c cs w : run (c :: cs) w = run cs (exec c w).
Proof. reflexivity. Qed.

(** What every call preserves holds after any sequence of calls. *)
Lemma run_invariant (P : World -> Prop) :
  (forall c w, P w -> P (exec c w)) ->
  forall cs w, P w -> P (run cs w).
Proof.
  intros Hstep cs. induction cs as [|c cs IH]; intros w Hw; [done|].
  rewrite run_cons. by apply IH, Hstep.
Qed.

Lemma reachable_invariant (P : World -> Prop) :
  P fresh -> (forall c w, P w -> P (exec c w)) ->
  forall w, reachable w -> P w.
Proof. intros H0 Hstep w [cs ->]. by apply run_invariant. Qed.

Lemma run_nextId cs w : nextId (manager w) <= nextId (manager (run cs w)).
Proof.
  revert w. induction cs as [|c cs IH]; intros w; [reflexivity|].
  rewrite run_cons. etrans; [|apply IH]. apply step_nextId, exec_step.
Qed.

Lemma reachable_ids_ok w : reachable w -> ids_ok w.
Proof.
  apply reachable_invariant.
  - split; [apply NoDup_nil_2 | constructor].
  - intros c w' H. eapply step_ids_ok; [apply exec_step | done].
Qed.

(** Where an id occurs once, the task behind it is the only one found. *)
Lemma delete_found_gone (l : list Task.t) i task :
  NoDup (Task.id <$> l) ->
  l !! i = Some task ->
  forall task', task' ∈ delete i l -> Task.id task' <> Task.id task.
Proof.
  intros Hnd Hi task' (k & Hk)%list_elem_of_lookup Heq.
  assert (exists j, j <> i /\ l !! j = Some task') as (j & Hne & Hj).
  { destruct (decide (k < i)%nat).
    - exists k. split; [lia|]. by rewrite <- (list_lookup_delete_lt l i k).
    - exists (S k). split; [lia|]. by rewrite <- (list_lookup_delete_ge l i k) by lia. }
  apply Hne. eapply NoDup_lookup; [exact Hnd | |].
  - by rewrite list_lookup_fmap, Hj.
  - by rewrite list_lookup_fmap, Hi, Heq.
Qed.

End ManagerInvariant.

Section Counter.

Lemma on_task_nextId {A} ref (m : M Task.t A) w :
  nextId (manager (on_task ref m w).2) = nextId (manager w).
Proof. unfold on_task. by destruct (m ref.2). Qed.

Lemma nextId_warned taskId w :
  nextId (manager (if is_number taskId then w else log (NonNumericId taskId) w))
  = nextId (manager w).
Proof. by rewrite manager_warned. Qed.

(** The counter moves on a successful [addTask], by one, and on nothing
    else. *)
Lemma exec_nextId c w :
  nextId (manager (exec c w)) =
    match c, thrown c w with
    | AddTask _ _, None => nextId (manager w) + 1
    | _, _ => nextId (manager w)
    end.
Proof.
  unfold exec, thrown.
  destruct c as [d dd|taskId|taskId|taskId|f|taskId|taskId u|i tc]; cbn [call forget fst snd].
  - by destruct (addTask_cases d dd w) as [(_ & _ & ->) | [(_ & ->) | (_ & _ & ->)]].
  - rewrite findTaskById_run. apply nextId_warned.
  - rewrite markTaskComplete_run.
    destruct (find _ _) as [[i task]|]; [done | apply nextId_warned].
  - rewrite markTaskIncomplete_run.
    destruct (find _ _) as [[i task]|]; [done | apply nextId_warned].
  - by rewrite listTasks_state.
  - rewrite deleteTask_run. by destruct (find _ _) as [[i task]|].
  - rewrite updateTask_run.
    destruct (find _ _) as [ref|]; [apply on_task_nextId | apply nextId_warned].
  - destruct (tasks (manager w) !! i) as [task|]; [|done].
    cbn [forget snd]. apply on_task_nextId.
Qed.

(** A successful [deleteTask]: the task found, its id, the state left. *)
Lemma deleteTask_done taskId w :
  thrown (DeleteTask taskId) w = None ->
  exists i task,
    tasks (manager w) !! i = Some task
    /\ taskId = JNum (NInt (Task.id task))
    /\ exec (DeleteTask taskId) w = set_tasks (delete i (tasks (manager w))) w.
Proof.
  unfold thrown, exec. cbn [call]. rewrite deleteTask_run.
  destruct (find _ _) as [[i task]|] eqn:E; [|discriminate].
  intros _. apply find_Some in E as (Hi & Hid%has_id_true & _).
  by exists i, task.
Qed.

End Counter.

(** C8. In every state reachable from a fresh manager the stored ids
    are pairwise distinct and below the counter; the counter starts at 1,
    goes up by one on each successful [addTask] and is left alone by
    every other call; so after a successful [deleteTask] the lookup of
    that id finds nothing, and no later [addTask] hands the id out
    again. *)
Theorem ids_unique_never_reused :
  nextId (manager fresh) = 1
  /\ (forall w, reachable w ->
        NoDup (ids w) /\ Forall (fun i => i < nextId (manager w)) (ids w))
  /\ (forall c w,
        nextId (manager (exec c w)) =
          match c, thrown c w with
          | AddTask _ _, None => nextId (manager w) + 1
          | _, _ => nextId (manager w)
          end)
  /\ (forall w taskId,
        reachable w ->
        thrown (DeleteTask taskId) w = None ->
        (_findTaskById taskId (exec (DeleteTask taskId) w)).1 = inr None
        /\ forall cs d dd task w',
             addTask d dd (run cs (exec (DeleteTask taskId) w)) = (inr task, w') ->
             has_id taskId task = false).
Proof.
  split_and!.
  - reflexivity.
  - apply reachable_ids_ok.
  - apply exec_nextId.
  - intros w taskId [Hnd Hlt]%reachable_ids_ok Hdel.
    destruct (deleteTask_done taskId w Hdel) as (i & task & Hi & -> & Hw).
    rewrite Hw. clear Hw Hdel. split.
    + rewrite findTaskById_run. cbn. f_equal. apply find_None.
      intros task' Hin. apply not_true_is_false. intros Heq%has_id_int.
      by eapply delete_found_gone.
    + intros cs d dd new w' Hadd.
      set (w1 := set_tasks _ w) in *.
      pose proof (run_nextId cs w1) as Hmono.
      assert (nextId (manager w1) = nextId (manager w)) as Hn by reflexivity.
      assert (Task.id task < nextId (manager w)) as Hbelow.
      { rewrite Forall_forall in Hlt. apply Hlt. unfold ids.
        apply list_elem_of_fmap. exists task. split; [done|].
        by eapply list_elem_of_lookup_2. }
      destruct (addTask_cases d dd (run cs w1)) as [(_ & _ & E) | [(_ & E) | (_ & _ & E)]];
        rewrite E in Hadd; try discriminate.
      injection Hadd as <- _. apply not_true_is_false. intros Heq%has_id_int.
      simpl in Heq. lia.
Qed.

Lemma ids_unique_never_reused_witness :
  reachable two_tasks
  /\ thrown (DeleteTask (JNum (NInt 1))) two_tasks = None
  /\ (_findTaskById (JNum (NInt 1)) (exec (DeleteTask (JNum (NInt 1))) two_tasks)).1
     = inr None
  /\ forall cs d dd task w',
       addTask d dd (run cs (exec (DeleteTask (JNum (NInt 1))) two_tasks)) = (inr task, w') ->
       has_id (JNum (NInt 1)) task = false.
Proof.
  assert (reachable two_tasks) as Hr by (eexists; reflexivity).
  split; [exact Hr|]. split; [reflexivity|].
  exact (proj2 (proj2 (proj2 ids_unique_never_reused))
           two_tasks (JNum (NInt 1)) Hr eq_refl).
Defined.

(** C9, as the spec states it, fails: a due date that is not text is
    stored as given when its string conversion passes the pattern.  The
    task built from an array holding one date string, by the constructor
    and by [addTask] on a fresh manager, has that array as its due date,
    which is not text of the shape YYYY-MM-DD. *)
Lemma task_keeps_array :
  Task.constructor 1 (JStr (utf16 "Report")) date_in_array None = inr report_with_array
  /\ task_reachable report_with_array
  /\ reachable (exec (AddTask (JStr (utf16 "Report")) date_in_array) fresh)
  /\ tasks (manager (exec (AddTask (JStr (utf16 "Report")) date_in_array) fresh))
     = [report_with_array]
  /\ Task.dueDate report_with_array = date_in_array
  /\ ~ text_dueDate (Task.dueDate report_with_array).
Proof.
  split_and!; try reflexivity.
  - by apply (reach_new 1 (JStr (utf16 "Report")) date_in_array None).
  - by exists [AddTask (JStr (utf16 "Report")) date_in_array].
  - intros (s & [=] & _).
Qed.

(** C9, amended.  Every Task reached by construction and then any Task
    or manager operations has a description that is non-empty, equal to
    its own trim and not whitespace-only, and a due date that passes the
    pattern test: a string of the shape YYYY-MM-DD, or an object, stored
    as given, whose string conversion has that shape; every operation
    preserves this. *)
Theorem task_invariant :
  (forall id d dd c task, Task.constructor id d dd c = inr task -> task_ok task)
  /\ (forall c task, task_ok task -> task_ok (task_call c task).2)
  /\ (forall task, task_reachable task -> task_ok task)
  /\ (forall c w,
        Forall task_ok (tasks (manager w)) ->
        Forall task_ok (tasks (manager (exec c w))))
  /\ (forall w, reachable w -> Forall task_ok (tasks (manager w)))
  /\ (forall w d dd task w',
        reachable w -> addTask d dd w = (inr task, w') -> task_ok task).
Proof.
  assert (forall c w, Forall task_ok (tasks (manager w)) ->
                      Forall task_ok (tasks (manager (exec c w)))) as Hexec.
  { intros c w. apply step_tasks_ok, exec_step. }
  split_and!.
  - intros id d dd c task H. by apply constructor_ok in H as [? _].
  - apply task_call_ok.
  - induction 1 as [id d dd c task H | task c _ IH].
    + by apply constructor_ok in H as [? _].
    + by apply task_call_ok.
  - exact Hexec.
  - apply (reachable_invariant (fun w => Forall task_ok (tasks (manager w))));
      [constructor | exact Hexec].
  - intros w d dd task w' _ Hadd.
    destruct (addTask_cases d dd w) as [(Hd & Hdd & E) | [(_ & E) | (_ & _ & E)]];
      rewrite E in Hadd; try discriminate.
    injection Hadd as <- _.
    eapply constructor_ok with (c := None). unfold Task.constructor.
    by rewrite Hd, Hdd.
Qed.

Lemma task_invariant_witness :
  reachable (exec (UpdateTask (JNum (NInt 1)) half_valid) one_task)
  /\ Forall task_ok (tasks (manager (exec (UpdateTask (JNum (NInt 1)) half_valid) one_task))).
Proof.
  assert (reachable (exec (UpdateTask (JNum (NInt 1)) half_valid) one_task)) as Hr.
  { exists [AddTask (JStr (utf16 "Old description")) (JStr (utf16 "2024-12-01"));
            UpdateTask (JNum (NInt 1)) half_valid]. reflexivity. }
  split; [exact Hr|].
  exact (proj1 (proj2 (proj2 (proj2 (proj2 task_invariant)))) _ Hr).
Defined.

(** * Further properties of the two classes *)

Section FirstWithId.

Lemma find_first_with_id taskId l i task :
  find (has_id taskId) l = Some (i, task) <-> first_with_id taskId l i task.
Proof.
  rewrite find_Some. unfold first_with_id. split.
  - intros (Hi & Hid%has_id_true & Hfirst). split_and!; try done.
    intros j task' Hj Hlt Heq. specialize (Hfirst j task' Hj Hlt).
    subst taskId. rewrite <- Heq in Hfirst.
    by rewrite (proj2 (has_id_true _ _) eq_refl) in Hfirst.
  - intros (Hi & -> & Hfirst). split_and!; try done.
    + by apply has_id_true.
    + intros j task' Hj Hlt. apply not_true_is_false. intros Heq%has_id_int.
      by eapply Hfirst.
Qed.

Lemma find_absent taskId l : find (has_id taskId) l = None <-> absent taskId l.
Proof.
  rewrite find_None. unfold absent. split.
  - intros H task Hin Heq%has_id_true. specialize (H task Hin). congruence.
  - intros H task Hin. apply not_true_is_false. intros Heq%has_id_true.
    by eapply H.
Qed.

Lemma not_integer_absent taskId l : is_integer taskId = false -> absent taskId l.
Proof. intros H. by apply find_absent, find_not_integer. Qed.

(** Replacing the task found by one with the same id does not move the
    first match. *)
Lemma find_insert_same_id taskId l i task task' :
  find (has_id taskId) l = Some (i, task) ->
  Task.id task' = Task.id task ->
  find (has_id taskId) (<[i := task']> l) = Some (i, task').
Proof.
  intros (Hi & Hid & Hfirst)%find_Some Heq. apply find_Some. split_and!.
  - apply list_lookup_insert_eq. by eapply lookup_lt_Some.
  - unfold has_id in *. by rewrite Heq.
  - intros j t Hj Hlt. rewrite list_lookup_insert_ne in Hj by lia.
    by eapply Hfirst.
Qed.

End FirstWithId.

(** X1. A [deleteTask] that returns has returned [true] and has removed
    exactly the first task with the given id: the tasks before and after
    it stay, in order; the counter and the console are untouched. *)
Theorem deleteTask_removes_first (taskId : JsVal) (w w' : World) (r : bool) :
  deleteTask taskId w = (inr r, w') ->
  r = true
  /\ exists i task,
       first_with_id taskId (tasks (manager w)) i task
       /\ tasks (manager w')
          = take i (tasks (manager w)) ++ drop (S i) (tasks (manager w))
       /\ S (length (tasks (manager w'))) = length (tasks (manager w))
       /\ nextId (manager w') = nextId (manager w)
       /\ console w' = console w.
Proof.
  rewrite deleteTask_run.
  destruct (find _ _) as [[i task]|] eqn:E; [|discriminate].
  intros [= <- <-]. split; [done|]. exists i, task.
  pose proof E as (Hi & _)%find_Some.
  split_and!; try done.
  - by apply find_first_with_id.
  - simpl. apply delete_take_drop.
  - simpl. rewrite length_delete by done.
    apply lookup_lt_Some in Hi. lia.
Qed.

Lemma deleteTask_removes_first_witness :
  deleteTask (JNum (NInt 1)) two_tasks = (inr true, World_mk (mk [report] 3) [])
  /\ true = true
  /\ exists i task,
       first_with_id (JNum (NInt 1)) (tasks (manager two_tasks)) i task
       /\ tasks (manager (World_mk (mk [report] 3) []))
          = take i (tasks (manager two_tasks)) ++ drop (S i) (tasks (manager two_tasks))
       /\ S (length (tasks (manager (World_mk (mk [report] 3) []))))
          = length (tasks (manager two_tasks))
       /\ nextId (manager (World_mk (mk [report] 3) [])) = nextId (manager two_tasks)
       /\ console (World_mk (mk [report] 3) []) = console two_tasks.
Proof.
  split; [reflexivity|].
  exact (deleteTask_removes_first (JNum (NInt 1)) two_tasks
           (World_mk (mk [report] 3) []) true eq_refl).
Defined.

(** X2. [deleteTask] throws exactly when no stored task has the id, and
    then it throws the not-found error naming the id and leaves the
    manager and the console as they were; in particular it throws for
    every argument that is not an integer, without the warning that the
    other lookups write. *)
Theorem deleteTask_not_found (taskId : JsVal) (w : World) :
  (absent taskId (tasks (manager w))
   <-> deleteTask taskId w = (inl (TaskNotFound taskId Delete), w))
  /\ (forall e w', deleteTask taskId w = (inl e, w') ->
        e = TaskNotFound taskId Delete /\ w' = w)
  /\ (is_integer taskId = false ->
        deleteTask taskId w = (inl (TaskNotFound taskId Delete), w)).
Proof.
  rewrite deleteTask_run, <- find_absent. split_and!.
  - destruct (find _ _) as [[i task]|]; split; (done || discriminate).
  - destruct (find _ _) as [[i task]|]; intros e w' [= <- <-]; done.
  - intros H. by rewrite find_not_integer.
Qed.

(** X3. [markTaskComplete], [markTaskIncomplete] and [updateTask] throw
    the not-found error, naming the id and their own action, exactly when
    no stored task has the id; the lookup happens before any validation,
    the manager is unchanged, and the console gets one warning when the
    argument is not of type number and nothing otherwise. *)
Theorem lookup_not_found (taskId : JsVal) (u : Updates) (w : World) :
  (absent taskId (tasks (manager w))
   <-> markTaskComplete taskId w
       = (inl (TaskNotFound taskId MarkAsComplete), warned taskId w))
  /\ (absent taskId (tasks (manager w))
      <-> markTaskIncomplete taskId w
          = (inl (TaskNotFound taskId MarkAsIncomplete), warned taskId w))
  /\ (absent taskId (tasks (manager w))
      <-> updateTask taskId u w = (inl (TaskNotFound taskId Update), warned taskId w))
  /\ manager (warned taskId w) = manager w
  /\ console (warned taskId w)
     = console w ++ (if is_number taskId then [] else [NonNumericId taskId]).
Proof.
  rewrite markTaskComplete_run, markTaskIncomplete_run, updateTask_run, <- find_absent.
  unfold warned. split_and!.
  - destruct (find _ _) as [[i task]|]; split; (done || discriminate).
  - destruct (find _ _) as [[i task]|]; split; (done || discriminate).
  - destruct (find _ _) as [[i task]|] eqn:E; split; try (done || discriminate).
    unfold on_task. cbn [fst snd]. rewrite update_found_run.
    destruct u as [[d|] [dd|]]; cbn [upd_description upd_dueDate];
      try destruct (Task.description_rejected d);
      try destruct (Task.dueDate_rejected dd); discriminate.
  - by destruct (is_number taskId).
  - destruct (is_number taskId); simpl; by rewrite ?app_nil_r.
Qed.

Section UpdateFrame.

Lemma on_task_changed_at {A} i task (m : M Task.t A) w :
  tasks (manager w) !! i = Some task ->
  only_changed_at i w (on_task (i, task) m w).2 (m task).2.
Proof.
  intros Hi. unfold on_task, only_changed_at. cbn [fst snd].
  destruct (m task) as [r task']. cbn.
  split_and!; try done.
  - apply list_lookup_insert_eq. by eapply lookup_lt_Some.
  - intros j Hj. by apply list_lookup_insert_ne.
  - apply length_insert.
Qed.

End UpdateFrame.

(** X4. An [updateTask] that returns has changed the first task with the
    given id and nothing else: its description is the trimmed new one
    when [updates] has a description and the old one otherwise, its due
    date is the new one as given when [updates] has a due date and the
    old one otherwise, its id and its [completed] flag are kept; the new
    values had passed their validation; every other task, the length, the
    counter and the console are unchanged; the task returned is the
    stored one. *)
Theorem updateTask_frame (taskId : JsVal) (u : Updates) (w w' : World)
    (returned : Task.t) :
  updateTask taskId u w = (inr returned, w') ->
  exists i task,
    first_with_id taskId (tasks (manager w)) i task
    /\ only_changed_at i w w' returned
    /\ Task.id returned = Task.id task
    /\ Task.completed returned = Task.completed task
    /\ Task.description returned
       = match upd_description u with
         | Some d => Task.trim_of d
         | None => Task.description task
         end
    /\ Task.dueDate returned
       = match upd_dueDate u with
         | Some dd => dd
         | None => Task.dueDate task
         end
    /\ (forall d, upd_description u = Some d -> valid_description d)
    /\ (forall dd, upd_dueDate u = Some dd -> valid_dueDate dd).
Proof.
  rewrite updateTask_run.
  destruct (find _ _) as [[i task]|] eqn:E; [|discriminate].
  pose proof E as (Hi & _)%find_Some.
  pose proof (on_task_changed_at i task (update_found u) w Hi) as Hframe.
  destruct (on_task (i, task) (update_found u) w) as [r w1] eqn:R.
  assert (r = (update_found u task).1) as Hr.
  { unfold on_task in R. cbn [fst snd] in R.
    destruct (update_found u task). by injection R as <- _. }
  intros [= -> ->]. exists i, task.
  apply find_first_with_id in E. cbn [snd] in Hframe.
  revert Hr Hframe. rewrite update_found_run.
  destruct u as [[d|] [dd|]]; cbn [upd_description upd_dueDate];
    try destruct (Task.description_rejected d) eqn:Hd;
    try destruct (Task.dueDate_rejected dd) eqn:Hdd;
    cbn; try discriminate; intros [= ->] Hframe;
    split_and!; try done;
    try (intros ? [= <-]; by (apply description_accepted || apply dueDate_accepted)).
Qed.

Lemma updateTask_frame_witness :
  updateTask (JNum (NInt 2))
    {| upd_description := Some (JStr (utf16 " Final report ")); upd_dueDate := None |}
    two_tasks
  = (inr (Task.mk 2 (utf16 "Final report") (JStr (utf16 "2024-08-20")) false),
     World_mk (mk [buy_milk false;
                   Task.mk 2 (utf16 "Final report") (JStr (utf16 "2024-08-20")) false] 3) [])
  /\ exists i task,
       first_with_id (JNum (NInt 2)) (tasks (manager two_tasks)) i task
       /\ only_changed_at i two_tasks
            (World_mk (mk [buy_milk false;
                           Task.mk 2 (utf16 "Final report") (JStr (utf16 "2024-08-20")) false] 3) [])
            (Task.mk 2 (utf16 "Final report") (JStr (utf16 "2024-08-20")) false)
       /\ Task.id (Task.mk 2 (utf16 "Final report") (JStr (utf16 "2024-08-20")) false)
          = Task.id task
       /\ Task.completed (Task.mk 2 (utf16 "Final report") (JStr (utf16 "2024-08-20")) false)
          = Task.completed task
       /\ Task.description (Task.mk 2 (utf16 "Final report") (JStr (utf16 "2024-08-20")) false)
          = Task.trim_of (JStr (utf16 " Final report "))
       /\ Task.dueDate (Task.mk 2 (utf16 "Final report") (JStr (utf16 "2024-08-20")) false)
          = Task.dueDate task
       /\ (forall d, Some (JStr (utf16 " Final report ")) = Some d -> valid_description d)
       /\ (forall dd, @None JsVal = Some dd -> valid_dueDate dd).
Proof.
  split; [reflexivity|].
  exact (updateTask_frame (JNum (NInt 2))
           {| upd_description := Some (JStr (utf16 " Final report ")); upd_dueDate := None |}
           two_tasks _ _ eq_refl).
Defined.

(** X5. [updateTask] with an [updates] object that has neither field
    returns the first task with the id as it is and changes nothing, the
    console included. *)
Theorem updateTask_empty_updates (taskId : JsVal) (w : World) (i : nat)
    (task : Task.t) :
  first_with_id taskId (tasks (manager w)) i task ->
  updateTask taskId {| upd_description := None; upd_dueDate := None |} w
  = (inr task, w).
Proof.
  intros E%find_first_with_id. rewrite updateTask_run, E.
  pose proof E as (Hi & _)%find_Some.
  unfold on_task. cbn [fst snd]. rewrite update_found_run. cbn.
  by rewrite list_insert_id, set_tasks_same.
Qed.

Lemma updateTask_empty_updates_witness :
  first_with_id (JNum (NInt 2)) (tasks (manager two_tasks)) 1 report
  /\ updateTask (JNum (NInt 2)) {| upd_description := None; upd_dueDate := None |} two_tasks
     = (inr report, two_tasks).
Proof.
  assert (first_with_id (JNum (NInt 2)) (tasks (manager two_tasks)) 1 report) as H.
  { split; [reflexivity|]. split; [reflexivity|].
    intros [|[|j]] task' Hj Hlt; [|lia..].
    injection Hj as <-. vm_compute. discriminate. }
  split; [exact H|].
  exact (updateTask_empty_updates (JNum (NInt 2)) two_tasks 1 report H).
Defined.

(** X6. In [updateTask] the description is validated first: when the
    task exists and [updates] has an invalid description, the call throws
    the description error and changes nothing, whatever due date came
    with it (a valid one is not applied). *)
Theorem updateTask_description_first (taskId d : JsVal) (odd : option JsVal)
    (w : World) (i : nat) (task : Task.t) :
  first_with_id taskId (tasks (manager w)) i task ->
  invalid_description d ->
  updateTask taskId {| upd_description := Some d; upd_dueDate := odd |} w
  = (inl NewTaskDescriptionEmpty, w).
Proof.
  intros E%find_first_with_id Hd%description_refused. rewrite updateTask_run, E.
  pose proof E as (Hi & _)%find_Some.
  unfold on_task. cbn [fst snd]. rewrite update_found_run. cbn. rewrite Hd.
  by rewrite list_insert_id, set_tasks_same.
Qed.

Lemma updateTask_description_first_witness :
  first_with_id (JNum (NInt 2)) (tasks (manager two_tasks)) 1 report
  /\ invalid_description (JStr (utf16 "   "))
  /\ updateTask (JNum (NInt 2))
       {| upd_description := Some (JStr (utf16 "   "));
          upd_dueDate := Some (JStr (utf16 "2025-01-15")) |} two_tasks
     = (inl NewTaskDescriptionEmpty, two_tasks).
Proof.
  assert (first_with_id (JNum (NInt 2)) (tasks (manager two_tasks)) 1 report) as H.
  { split; [reflexivity|]. split; [reflexivity|].
    intros [|[|j]] task' Hj Hlt; [|lia..].
    injection Hj as <-. vm_compute. discriminate. }
  assert (invalid_description (JStr (utf16 "   "))) as Hd.
  { right; right; right. exists (utf16 "   "). split; reflexivity. }
  split; [exact H|]. split; [exact Hd|].
  exact (updateTask_description_first (JNum (NInt 2)) (JStr (utf16 "   "))
           (Some (JStr (utf16 "2025-01-15"))) two_tasks 1 report H Hd).
Defined.

(** X7. A failing [addTask] writes exactly one line on the console, the
    error it then throws, and leaves the manager as it was; the
    description is checked first, so an invalid description is the error
    reported whatever the due date is.  A succeeding [addTask] writes
    nothing on the console. *)
Theorem addTask_reports (d dd : JsVal) (w : World) :
  (invalid_description d ->
     addTask d dd w
     = (inl TaskDescriptionEmpty,
        World_mk (manager w) (console w ++ [ErrorAddingTask TaskDescriptionEmpty])))
  /\ (valid_description d -> invalid_dueDate dd ->
     addTask d dd w
     = (inl InvalidDueDate,
        World_mk (manager w) (console w ++ [ErrorAddingTask InvalidDueDate])))
  /\ (valid_description d -> valid_dueDate dd ->
     exists task, (addTask d dd w).1 = inr task
                  /\ console (addTask d dd w).2 = console w).
Proof.
  split_and!.
  - intros Hd%description_refused. by rewrite addTask_refuses_description.
  - intros Hd%description_accepted Hdd%dueDate_refused.
    by rewrite addTask_refuses_dueDate.
  - intros Hd%description_accepted Hdd%dueDate_accepted.
    rewrite addTask_accepts by done. by eexists.
Qed.

Lemma addTask_reports_witness :
  invalid_description JUndefined
  /\ addTask JUndefined (JStr (utf16 "tomorrow")) two_tasks
     = (inl TaskDescriptionEmpty,
        World_mk (manager two_tasks)
          (console two_tasks ++ [ErrorAddingTask TaskDescriptionEmpty])).
Proof.
  assert (invalid_description JUndefined) as H by (by left).
  split; [exact H|].
  exact (proj1 (addTask_reports JUndefined (JStr (utf16 "tomorrow")) two_tasks) H).
Defined.

(** X8. The description check of [updateDescription] and of the
    constructor: a string with a non-empty trim is accepted and stored
    without the white space around it (the input is that white space
    around the stored text), the other fields of the task being kept;
    anything else is refused, the task being left as it was, and in the
    constructor the refusal comes before the due date is looked at. *)
Theorem description_check (v : JsVal) (task : Task.t) :
  (valid_description v ->
     exists s before after,
       v = JStr s
       /\ s = before ++ trim s ++ after
       /\ whitespace_only before /\ whitespace_only after
       /\ Task.updateDescription v task
          = (inr tt,
             Task.mk (Task.id task) (trim s) (Task.dueDate task) (Task.completed task)))
  /\ (invalid_description v ->
        Task.updateDescription v task = (inl NewTaskDescriptionEmpty, task)
        /\ forall id dd c, Task.constructor id v dd c = inl TaskDescriptionEmpty).
Proof.
  split.
  - intros Hv. pose proof Hv as (s & -> & Hs).
    destruct (trim_split s) as (before & after & Hsplit & Hb & Ha).
    exists s, before, after. split_and!; try done.
    unfold Task.updateDescription.
    by rewrite (proj2 (description_accepted _) Hv).
  - intros Hv%description_refused. split.
    + unfold Task.updateDescription. by rewrite Hv.
    + intros id dd c. unfold Task.constructor. by rewrite Hv.
Qed.

Lemma description_check_witness :
  invalid_description (JNum (NInt 7))
  /\ Task.updateDescription (JNum (NInt 7)) report = (inl NewTaskDescriptionEmpty, report)
  /\ forall id dd c, Task.constructor id (JNum (NInt 7)) dd c = inl TaskDescriptionEmpty.
Proof.
  assert (invalid_description (JNum (NInt 7))) as H by (right; right; left; reflexivity).
  split; [exact H|].
  exact (proj2 (description_check (JNum (NInt 7)) report) H).
Defined.

Section Marks.

(** Both marks in one equation; [b] is the flag written. *)
Lemma mark_run (b : bool) taskId w :
  (if b then markTaskComplete else markTaskIncomplete) taskId w =
    match find (has_id taskId) (tasks (manager w)) with
    | Some (i, task) =>
        (inr (Task.set_completed b task),
         set_tasks (<[i := Task.set_completed b task]> (tasks (manager w))) w)
    | None =>
        (inl (TaskNotFound taskId (if b then MarkAsComplete else MarkAsIncomplete)),
         warned taskId w)
    end.
Proof.
  destruct b; [rewrite markTaskComplete_run | rewrite markTaskIncomplete_run];
    by destruct (find _ _) as [[i task]|].
Qed.

Lemma set_tasks_set_tasks l l' w : set_tasks l (set_tasks l' w) = set_tasks l w.
Proof. reflexivity. Qed.

End Marks.

(** X9. Marks do not pile up: after a mark that returned, a second mark
    of the same id (to complete or to incomplete) gives exactly what it
    would have given without the first; and marking a task with the flag
    it already has returns it and changes nothing.  So marking twice is
    marking once, and marking a pending task complete and then incomplete
    restores the state. *)
Theorem last_mark_wins (b b' : bool) (taskId : JsVal) (w : World) :
  (forall task1 w1,
     (if b then markTaskComplete else markTaskIncomplete) taskId w = (inr task1, w1) ->
     (if b' then markTaskComplete else markTaskIncomplete) taskId w1
     = (if b' then markTaskComplete else markTaskIncomplete) taskId w)
  /\ (forall i task,
        first_with_id taskId (tasks (manager w)) i task ->
        Task.completed task = b ->
        (if b then markTaskComplete else markTaskIncomplete) taskId w = (inr task, w)).
Proof.
  split.
  - intros task1 w1. rewrite !mark_run.
    destruct (find _ _) as [[i task]|] eqn:E; [|discriminate].
    intros [= <- <-]. cbn [manager set_tasks tasks].
    rewrite (find_insert_same_id _ _ _ _ (Task.set_completed b task) E) by done.
    by rewrite list_insert_insert_eq.
  - intros i task E%find_first_with_id Hb. rewrite mark_run, E.
    pose proof E as (Hi & _)%find_Some.
    assert (Task.set_completed b task = task) as ->.
    { destruct task. simpl in *. by subst. }
    by rewrite list_insert_id, set_tasks_same.
Qed.

Lemma last_mark_wins_witness :
  markTaskComplete (JNum (NInt 1)) two_tasks
  = (inr (buy_milk true), World_mk (mk [buy_milk true; report] 3) [])
  /\ markTaskIncomplete (JNum (NInt 1)) (World_mk (mk [buy_milk true; report] 3) [])
     = markTaskIncomplete (JNum (NInt 1)) two_tasks.
Proof.
  split; [reflexivity|].
  exact (proj1 (last_mark_wins true false (JNum (NInt 1)) two_tasks)
           (buy_milk true) (World_mk (mk [buy_milk true; report] 3) []) eq_refl).
Defined.

(** X10. What a mark or an update returns is what the lookup of the same
    id then finds, at the position it had, and that lookup changes
    nothing. *)
Theorem lookup_after_change (taskId : JsVal) (u : Updates) (w w' : World)
    (returned : Task.t) :
  markTaskComplete taskId w = (inr returned, w')
  \/ markTaskIncomplete taskId w = (inr returned, w')
  \/ updateTask taskId u w = (inr returned, w') ->
  exists i task,
    first_with_id taskId (tasks (manager w)) i task
    /\ _findTaskById taskId w' = (inr (Some (i, returned)), w').
Proof.
  rewrite markTaskComplete_run, markTaskIncomplete_run, updateTask_run,
    findTaskById_run.
  destruct (find _ _) as [[i task]|] eqn:E;
    [|intros [H | [H | H]]; discriminate].
  rewrite (find_Some_number _ _ _ E).
  pose proof E as Hfirst%find_first_with_id.
  intros H. exists i, task. split; [done|].
  assert (w' = set_tasks (<[i := returned]> (tasks (manager w))) w
          /\ Task.id returned = Task.id task) as [-> Hid].
  { destruct H as [H | [H | H]].
    - by injection H as <- <-.
    - by injection H as <- <-.
    - unfold on_task in H. cbn [fst snd] in H.
      pose proof (update_found_id u task) as Hid.
      destruct (update_found u task) as [r task'] eqn:U.
      injection H as -> <-.
      assert (returned = task') as ->; [|done].
      revert U. rewrite update_found_run.
      destruct u as [[d|] [dd|]]; cbn [upd_description upd_dueDate];
        try destruct (Task.description_rejected d);
        try destruct (Task.dueDate_rejected dd); congruence. }
  cbn [manager set_tasks tasks].
  by rewrite (find_insert_same_id _ _ _ _ returned E).
Qed.

Lemma lookup_after_change_witness :
  (markTaskComplete (JNum (NInt 1)) two_tasks
   = (inr (buy_milk true), World_mk (mk [buy_milk true; report] 3) [])
   \/ markTaskIncomplete (JNum (NInt 1)) two_tasks
      = (inr (buy_milk true), World_mk (mk [buy_milk true; report] 3) [])
   \/ updateTask (JNum (NInt 1)) half_valid two_tasks
      = (inr (buy_milk true), World_mk (mk [buy_milk true; report] 3) []))
  /\ exists i task,
       first_with_id (JNum (NInt 1)) (tasks (manager two_tasks)) i task
       /\ _findTaskById (JNum (NInt 1)) (World_mk (mk [buy_milk true; report] 3) [])
          = (inr (Some (i, buy_milk true)), World_mk (mk [buy_milk true; report] 3) []).
Proof.
  assert (markTaskComplete (JNum (NInt 1)) two_tasks
          = (inr (buy_milk true), World_mk (mk [buy_milk true; report] 3) [])) as H
    by reflexivity.
  split; [by left|].
  exact (lookup_after_change (JNum (NInt 1)) half_valid two_tasks
           (World_mk (mk [buy_milk true; report] 3) []) (buy_milk true) (or_introl H)).
Defined.

(** X11. In a reachable state, the task a successful [addTask] returns
    is the one the lookup of its id then finds, at the last position. *)
Theorem addTask_then_find (d dd : JsVal) (w w' : World) (task : Task.t) :
  reachable w ->
  addTask d dd w = (inr task, w') ->
  _findTaskById (JNum (NInt (Task.id task))) w'
  = (inr (Some (length (tasks (manager w)), task)), w').
Proof.
  intros [_ Hlt]%reachable_ids_ok Hadd.
  destruct (addTask_cases d dd w) as [(_ & _ & E) | [(_ & E) | (_ & _ & E)]];
    rewrite E in Hadd; try discriminate.
  injection Hadd as <- <-. rewrite findTaskById_run. cbn. f_equal. f_equal.
  apply find_Some. split_and!.
  - by rewrite list_lookup_middle.
  - by apply has_id_int.
  - intros j task' Hj Hlen. rewrite lookup_app_l in Hj by done.
    apply not_true_is_false. intros Heq%has_id_int. simpl in Heq.
    rewrite Forall_forall in Hlt.
    assert (Task.id task' < nextId (manager w)); [|lia].
    apply Hlt. unfold ids. apply list_elem_of_fmap. exists task'.
    split; [done|]. by eapply list_elem_of_lookup_2.
Qed.

Lemma addTask_then_find_witness :
  reachable two_tasks
  /\ addTask (JStr (utf16 "Call Ann")) (JStr (utf16 "2024-09-01")) two_tasks
     = (inr (Task.mk 3 (utf16 "Call Ann") (JStr (utf16 "2024-09-01")) false),
        World_mk (mk [buy_milk false; report;
                      Task.mk 3 (utf16 "Call Ann") (JStr (utf16 "2024-09-01")) false] 4) [])
  /\ _findTaskById (JNum (NInt 3))
       (World_mk (mk [buy_milk false; report;
                      Task.mk 3 (utf16 "Call Ann") (JStr (utf16 "2024-09-01")) false] 4) [])
     = (inr (Some (length (tasks (manager two_tasks)),
                   Task.mk 3 (utf16 "Call Ann") (JStr (utf16 "2024-09-01")) false)),
        World_mk (mk [buy_milk false; report;
                      Task.mk 3 (utf16 "Call Ann") (JStr (utf16 "2024-09-01")) false] 4) []).
Proof.
  assert (reachable two_tasks) as Hr by (eexists; reflexivity).
  split; [exact Hr|]. split; [reflexivity|].
  exact (addTask_then_find (JStr (utf16 "Call Ann")) (JStr (utf16 "2024-09-01"))
           two_tasks _ _ Hr eq_refl).
Defined.

Section Increasing.

Lemma increasing_snoc l n :
  increasing l -> Forall (fun a => a < n) l -> increasing (l ++ [n]).
Proof.
  intros Hinc Hlt i j a b Hi Hj Hij.
  assert (i < length l)%nat as Hil.
  { apply lookup_lt_Some in Hj. rewrite length_app in Hj. simpl in Hj. lia. }
  rewrite lookup_app_l in Hi by done.
  destruct (decide (j < length l)%nat) as [Hjl|Hjl].
  - rewrite lookup_app_l in Hj by done. by eapply Hinc.
  - rewrite lookup_app_r in Hj by lia.
    destruct (j - length l)%nat as [|k] eqn:K; [|by destruct k].
    injection Hj as <-. rewrite Forall_forall in Hlt. apply Hlt.
    by eapply list_elem_of_lookup_2.
Qed.

Lemma increasing_delete l k : increasing l -> increasing (delete k l).
Proof.
  intros Hinc i j a b Hi Hj Hij.
  rewrite list_lookup_delete in Hi, Hj.
  destruct (decide (i < k)%nat), (decide (j < k)%nat);
    (eapply Hinc; [exact Hi | exact Hj | lia]).
Qed.

(** In an increasing list of integers from 1 on, position [i] holds at
    least [i + 1]. *)
Lemma increasing_at_least l :
  increasing l -> Forall (fun a => 1 <= a) l ->
  forall i a, l !! i = Some a -> Z.of_nat i + 1 <= a.
Proof.
  intros Hinc Hge i. induction i as [|i IH]; intros a Hi.
  - rewrite Forall_forall in Hge. specialize (Hge a).
    assert (1 <= a); [|lia]. apply Hge. by eapply list_elem_of_lookup_2.
  - destruct (l !! i) as [a'|] eqn:Hi'.
    + specialize (IH a' eq_refl).
      assert (a' < a) by (eapply (Hinc i (S i)); [done..|lia]). lia.
    + apply lookup_ge_None in Hi'. apply lookup_lt_Some in Hi. lia.
Qed.

Lemma ids_insert_same_id (l : list Task.t) i task task' :
  l !! i = Some task -> Task.id task' = Task.id task ->
  Task.id <$> <[i := task']> l = Task.id <$> l.
Proof.
  intros Hi Hid. rewrite list_fmap_insert, Hid, list_insert_id; [done|].
  by rewrite list_lookup_fmap, Hi.
Qed.

Lemma step_increasing w w' :
  manager_step (manager w) (manager w') ->
  increasing (ids w) /\ Forall (fun a => 1 <= a < nextId (manager w)) (ids w)
  /\ 1 <= nextId (manager w) ->
  increasing (ids w') /\ Forall (fun a => 1 <= a < nextId (manager w')) (ids w')
  /\ 1 <= nextId (manager w').
Proof.
  unfold ids.
  intros [-> | task Hid _ -> | i task task' Hi Hid _ -> | i ->] (Hinc & Hb & Hn); simpl.
  - done.
  - rewrite fmap_app. simpl. split_and!; [| |lia].
    + rewrite Hid. apply increasing_snoc; [done|].
      eapply Forall_impl; [exact Hb|]. simpl. intros; lia.
    + apply Forall_app. split.
      * eapply Forall_impl; [exact Hb|]. simpl. intros; lia.
      * constructor; [lia | constructor].
  - by rewrite (ids_insert_same_id _ _ _ _ Hi Hid).
  - rewrite list_fmap_delete. split_and!; [|by apply Forall_delete|done].
    by apply increasing_delete.
Qed.

Lemma reachable_increasing w :
  reachable w ->
  increasing (ids w) /\ Forall (fun a => 1 <= a < nextId (manager w)) (ids w)
  /\ 1 <= nextId (manager w).
Proof.
  revert w.
  apply (reachable_invariant
           (fun w => increasing (ids w)
                     /\ Forall (fun a => 1 <= a < nextId (manager w)) (ids w)
                     /\ 1 <= nextId (manager w))).
  - split_and!; [|constructor|done]. intros i j a b Hi. by destruct i.
  - intros c w' H. eapply step_increasing; [apply exec_step | done].
Qed.

End Increasing.

(** X12. In every reachable state the sequence is in the order of the
    ids: a task stored before another has the smaller id; every id is at
    least 1 and below the counter, the task at position [i] (from 0) has
    an id of at least [i + 1], and the number of stored tasks is below
    the counter. *)
Theorem tasks_in_id_order (w : World) :
  reachable w ->
  (forall i j task task',
     tasks (manager w) !! i = Some task -> tasks (manager w) !! j = Some task' ->
     (i < j)%nat -> Task.id task < Task.id task')
  /\ (forall i task,
        tasks (manager w) !! i = Some task ->
        Z.of_nat i + 1 <= Task.id task < nextId (manager w))
  /\ Z.of_nat (length (tasks (manager w))) < nextId (manager w).
Proof.
  intros (Hinc & Hb & Hn)%reachable_increasing.
  assert (forall i task, tasks (manager w) !! i = Some task ->
            Z.of_nat i + 1 <= Task.id task < nextId (manager w)) as Hpos.
  { intros i task Hi.
    assert (ids w !! i = Some (Task.id task)) as Hid.
    { unfold ids. by rewrite list_lookup_fmap, Hi. }
    split.
    - eapply increasing_at_least; [exact Hinc| |exact Hid].
      eapply Forall_impl; [exact Hb|]. simpl. intros; lia.
    - rewrite Forall_forall in Hb. apply Hb. by eapply list_elem_of_lookup_2. }
  split_and!.
  - intros i j task task' Hi Hj Hij. eapply (Hinc i j); [| |done]; unfold ids.
    + by rewrite list_lookup_fmap, Hi.
    + by rewrite list_lookup_fmap, Hj.
  - exact Hpos.
  - destruct (tasks (manager w)) as [|t l] eqn:Hl using rev_ind; [simpl; lia|].
    clear IHl. specialize (Hpos (length l) t).
    rewrite list_lookup_middle in Hpos by done. specialize (Hpos eq_refl).
    rewrite length_app. simpl. lia.
Qed.

Lemma tasks_in_id_order_witness :
  reachable two_tasks
  /\ (forall i j task task',
        tasks (manager two_tasks) !! i = Some task ->
        tasks (manager two_tasks) !! j = Some task' ->
        (i < j)%nat -> Task.id task < Task.id task')
  /\ (forall i task,
        tasks (manager two_tasks) !! i = Some task ->
        Z.of_nat i + 1 <= Task.id task < nextId (manager two_tasks))
  /\ Z.of_nat (length (tasks (manager two_tasks))) < nextId (manager two_tasks).
Proof.
  assert (reachable two_tasks) as Hr by (eexists; reflexivity).
  split; [exact Hr|]. exact (tasks_in_id_order two_tasks Hr).
Defined.

Section CallByCall.

(** One case per way a call can go; in the cases of [updateTask] and of
    a Task method on a stored task, [r] and [task'] are what the Task
    methods returned and left. *)
Ltac call_cases c w :=
  unfold exec, thrown;
  destruct c as [d dd|taskId|taskId|taskId|f|taskId|taskId u|i tc];
  cbn [call forget fst snd];
  [ destruct (addTask_cases d dd w) as [(Hd & Hdd & ->) | [(Hd & ->) | (Hd & Hdd & ->)]]
  | rewrite findTaskById_run
  | rewrite markTaskComplete_run; destruct (find _ _) as [[i task]|] eqn:E
  | rewrite markTaskIncomplete_run; destruct (find _ _) as [[i task]|] eqn:E
  | idtac
  | rewrite deleteTask_run; destruct (find _ _) as [[i task]|] eqn:E
  | rewrite updateTask_run; destruct (find _ _) as [[i task]|] eqn:E;
    [ unfold on_task; cbn [fst snd];
      destruct (update_found u task) as [r task'] eqn:U | ]
  | destruct (tasks (manager w) !! i) as [task|] eqn:Hi;
    [ unfold on_task; cbn [forget fst snd];
      destruct (task_call tc task) as [r task'] eqn:U | ] ];
  cbn [forget fst snd manager tasks nextId console set_tasks log].

Lemma listTasks_error f w e :
  (listTasks f w).1 = inl e -> e = InvalidFilterStatus (default (utf16 "all") f).
Proof.
  destruct f as [f|]; [|discriminate]. rewrite listTasks_run.
  repeat (case_bool_decide; [discriminate|]). by intros [= <-].
Qed.

Lemma update_found_error u task e :
  (update_found u task).1 = inl e ->
  (e = NewTaskDescriptionEmpty /\ is_Some (upd_description u))
  \/ (e = InvalidNewDueDate /\ is_Some (upd_dueDate u)).
Proof.
  rewrite update_found_run.
  destruct u as [[d|] [dd|]]; cbn [upd_description upd_dueDate];
    try destruct (Task.description_rejected d);
    try destruct (Task.dueDate_rejected dd); cbn; intros [= <-]; eauto.
Qed.

Lemma task_call_error tc task e :
  (task_call tc task).1 = inl e ->
  match tc with
  | MarkComplete | MarkIncomplete => False
  | UpdateDescription _ => e = NewTaskDescriptionEmpty
  | UpdateDueDate _ => e = InvalidNewDueDate
  end.
Proof.
  destruct tc as [| |v|v]; cbn; try discriminate.
  - unfold Task.updateDescription. destruct (Task.description_rejected v); cbn; congruence.
  - unfold Task.updateDueDate. destruct (Task.dueDate_rejected v); cbn; congruence.
Qed.

Lemma thrown_may_throw c w e : thrown c w = Some e -> may_throw c e.
Proof.
  call_cases c w; try discriminate; try (intros [= <-]; cbn; by eauto).
  - destruct (listTasks f w) as [[e'|l] w'] eqn:L; [|discriminate].
    intros [= <-]. cbn. apply (listTasks_error f w). by rewrite L.
  - destruct r as [e'|?]; [|discriminate]. intros [= <-]. cbn. right.
    apply (update_found_error u task). by rewrite U.
  - destruct r as [e'|?]; [|discriminate]. intros [= <-].
    pose proof (task_call_error tc task e') as H. rewrite U in H.
    specialize (H eq_refl). by destruct tc.
Qed.

Lemma exec_console c w :
  console (exec c w) = console w
  \/ exists line,
       console (exec c w) = console w ++ [line]
       /\ may_log c line
       /\ forall e, line = ErrorAddingTask e -> thrown c w = Some e.
Proof.
  assert (forall taskId, console (if is_number taskId then w
                                  else TodoListManager.log (NonNumericId taskId) w)
                         = console w
             \/ exists line, console (if is_number taskId then w
                                      else TodoListManager.log (NonNumericId taskId) w)
                             = console w ++ [line]
                  /\ (line = NonNumericId taskId /\ is_number taskId = false)
                  /\ forall e, line = ErrorAddingTask e -> False) as Hwarn.
  { intros taskId. destruct (is_number taskId); [by left|]. right. by eexists. }
  call_cases c w; try (by left);
    try (right; eexists; split_and!; [reflexivity | cbn; by eauto | by intros ? [= <-]]);
    try (destruct (Hwarn taskId) as [H | (line & H1 & H2 & H3)];
         [by left | right; exists line; split_and!; try done;
                    intros e He; by destruct (H3 e He)]).
  left. by rewrite listTasks_state.
Qed.

Lemma exec_ids c w :
  match c, thrown c w with
  | AddTask _ _, None => ids (exec c w) = ids w ++ [nextId (manager w)]
  | DeleteTask taskId, None =>
      exists i z,
        taskId = JNum (NInt z) /\ ids w !! i = Some z
        /\ (forall j, (j < i)%nat -> ids w !! j <> Some z)
        /\ ids (exec c w) = take i (ids w) ++ drop (S i) (ids w)
  | _, _ => ids (exec c w) = ids w
  end.
Proof.
  unfold ids. call_cases c w; try done.
  - by rewrite fmap_app.
  - by destruct (is_number taskId).
  - apply find_Some in E as (Hi & _). by apply (ids_insert_same_id _ _ task).
  - by destruct (is_number taskId).
  - apply find_Some in E as (Hi & _). by apply (ids_insert_same_id _ _ task).
  - by destruct (is_number taskId).
  - by rewrite listTasks_state; destruct (listTasks f w).1.
  - apply find_first_with_id in E as (Hi & -> & Hfirst).
    exists i, (Task.id task). split_and!; try done.
    + by rewrite list_lookup_fmap, Hi.
    + intros j Hj. rewrite list_lookup_fmap.
      destruct (tasks (manager w) !! j) as [task'|] eqn:Hl; [|done].
      cbn. intros [= Heq]. by eapply Hfirst.
    + by rewrite list_fmap_delete, delete_take_drop.
  - assert (Task.id <$> <[i:=task']> (tasks (manager w)) = Task.id <$> tasks (manager w)).
    { apply find_Some in E as (Hi & _). apply (ids_insert_same_id _ _ task); [done|].
      change task' with (r, task').2. rewrite <- U. apply update_found_id. }
    by destruct r.
  - destruct (is_number taskId); by cbn.
  - assert (Task.id <$> <[i:=task']> (tasks (manager w)) = Task.id <$> tasks (manager w)).
    { apply (ids_insert_same_id _ _ task); [done|].
      change task' with (r, task').2. rewrite <- U. apply task_call_id. }
    by destruct r.
Qed.

Lemma exec_length c w :
  (length (tasks (manager (exec c w)))
   + (if is_delete c && bool_decide (thrown c w = None) then 1 else 0)
   = length (tasks (manager w))
     + (if is_add c && bool_decide (thrown c w = None) then 1 else 0))%nat.
Proof.
  call_cases c w; cbn [is_add is_delete andb];
    rewrite ?length_app, ?length_insert; cbn; try lia.
  - destruct (is_number taskId); cbn; lia.
  - destruct (is_number taskId); cbn; lia.
  - destruct (is_number taskId); cbn; lia.
  - rewrite listTasks_state. lia.
  - apply find_Some in E as (Hi%lookup_lt_Some & _).
    rewrite length_delete by (by apply lookup_lt_is_Some_2). lia.
  - destruct (is_number taskId); cbn; lia.
Qed.

End CallByCall.

(** X13. Ids are assigned once: a call that is not a successful
    [addTask] or [deleteTask] leaves the sequence of ids exactly as it
    was (marks, updates and Task methods on stored tasks never touch an
    id); a successful [addTask] appends the counter; a successful
    [deleteTask] removes the first occurrence of its id.  Hence after any
    run every stored id was either stored before the run or is at least
    the counter the run started from. *)
Theorem ids_assigned_once (c : Call) (w : World) :
  match c, thrown c w with
  | AddTask _ _, None => ids (exec c w) = ids w ++ [nextId (manager w)]
  | DeleteTask taskId, None =>
      exists i z,
        taskId = JNum (NInt z) /\ ids w !! i = Some z
        /\ (forall j, (j < i)%nat -> ids w !! j <> Some z)
        /\ ids (exec c w) = take i (ids w) ++ drop (S i) (ids w)
  | _, _ => ids (exec c w) = ids w
  end
  /\ forall cs z,
       z ∈ ids (run cs w) -> z ∈ ids w \/ nextId (manager w) <= z.
Proof.
  split; [apply exec_ids|].
  intros cs. revert w. induction cs as [|c' cs IH]; intros w z Hz; [by left|].
  rewrite run_cons in Hz. apply IH in Hz.
  pose proof (step_nextId _ _ (exec_step c' w)) as Hmono.
  destruct Hz as [Hz | Hz]; [|right; lia].
  pose proof (exec_ids c' w) as Hids.
  assert (ids (exec c' w) = ids w
          \/ ids (exec c' w) = ids w ++ [nextId (manager w)]
          \/ exists i, ids (exec c' w) = take i (ids w) ++ drop (S i) (ids w))
    as [H | [H | (i & H)]].
  { destruct c';
      try match type of Hids with
          | context [thrown ?c w] => destruct (thrown c w)
          end;
      try (by left); try (by right; left).
    destruct Hids as (i & _ & _ & _ & _ & H). right; right. by exists i. }
  - left. by rewrite <- H.
  - rewrite H in Hz. apply elem_of_app in Hz as [Hz | Hz%list_elem_of_singleton];
      [by left | right; lia].
  - left. rewrite H, <- delete_take_drop in Hz.
    by eapply list_elem_of_delete_inv.
Qed.

(** X14. The console is only appended to, by at most one line per call;
    only a failing [addTask] (the error it throws) and the lookup of an
    argument that is not of type number, in [_findTaskById],
    [markTaskComplete], [markTaskIncomplete] and [updateTask], write a
    line; [listTasks], [deleteTask] and the Task methods never do.  So
    after any run the old console is a prefix of the new one. *)
Theorem console_append_only (c : Call) (w : World) :
  (console (exec c w) = console w
   \/ exists line,
        console (exec c w) = console w ++ [line]
        /\ may_log c line
        /\ forall e, line = ErrorAddingTask e -> thrown c w = Some e)
  /\ forall cs, console w `prefix_of` console (run cs w).
Proof.
  split; [apply exec_console|].
  intros cs. revert w. induction cs as [|c' cs IH]; intros w; [done|].
  rewrite run_cons. etrans; [|apply IH].
  destruct (exec_console c' w) as [-> | (line & -> & _)]; [done|].
  by apply prefix_app_r.
Qed.

(** X15. Each operation throws only its own errors: [addTask] the two
    construction errors; the marks and [deleteTask] the not-found error
    with their id and action; [updateTask] that error or the update
    error of a field that [updates] has; [listTasks] the invalid-filter
    error quoting its argument; [_findTaskById], [markComplete] and
    [markIncomplete] nothing at all. *)
Theorem only_own_errors (c : Call) (w : World) (e : Error) :
  thrown c w = Some e -> may_throw c e.
Proof. apply thrown_may_throw. Qed.

Lemma only_own_errors_witness :
  thrown (UpdateTask (JNum (NInt 1)) half_valid) one_task = Some InvalidNewDueDate
  /\ may_throw (UpdateTask (JNum (NInt 1)) half_valid) InvalidNewDueDate.
Proof.
  split; [reflexivity|].
  exact (only_own_errors (UpdateTask (JNum (NInt 1)) half_valid) one_task
           InvalidNewDueDate eq_refl).
Defined.

(** X16. Counting: after any run, the counter has grown by the number of
    [addTask] calls that returned, and the number of stored tasks by
    that number less the number of [deleteTask] calls that returned; from
    a fresh manager the counter is one more than the number of additions
    made. *)
Theorem counter_counts_additions (cs : list Call) (w : World) :
  nextId (manager (run cs w))
  = nextId (manager w) + Z.of_nat (returned_calls is_add cs w)
  /\ (length (tasks (manager (run cs w))) + returned_calls is_delete cs w
      = length (tasks (manager w)) + returned_calls is_add cs w)%nat
  /\ nextId (manager (run cs fresh)) = 1 + Z.of_nat (returned_calls is_add cs fresh).
Proof.
  assert (forall w,
            nextId (manager (run cs w))
            = nextId (manager w) + Z.of_nat (returned_calls is_add cs w)) as Hn.
  { clear w. induction cs as [|c cs IH]; intros w; [simpl; lia|].
    rewrite run_cons, IH, exec_nextId. cbn [returned_calls].
    destruct c; cbn [is_add andb]; try lia.
    destruct (thrown _ w); cbn; lia. }
  split_and!; [apply Hn| |apply Hn].
  clear Hn. revert w. induction cs as [|c cs IH]; intros w; [simpl; lia|].
  rewrite run_cons. cbn [returned_calls].
  pose proof (exec_length c w). specialize (IH (exec c w)). lia.
Qed.

(** X17. A task just added shows at the end of the full listing and of
    the pending listing, and the completed listing is what it was. *)
Theorem listing_after_addTask (d dd : JsVal) (w w' : World) (task : Task.t) :
  addTask d dd w = (inr task, w') ->
  listTasks None w' = (inr (tasks (manager w) ++ [task]), w')
  /\ listTasks (Some (utf16 "pending")) w'
     = (inr (pending_tasks (tasks (manager w)) ++ [task]), w')
  /\ listTasks (Some (utf16 "completed")) w'
     = (inr (completed_tasks (tasks (manager w))), w').
Proof.
  intros Hadd.
  destruct (addTask_cases d dd w) as [(_ & _ & E) | [(_ & E) | (_ & _ & E)]];
    rewrite E in Hadd; try discriminate.
  injection Hadd as <- <-.
  rewrite listTasks_default, listTasks_all, listTasks_pending, listTasks_completed.
  cbn [manager tasks]. unfold pending_tasks, completed_tasks.
  rewrite !filter_app. cbn. by rewrite app_nil_r.
Qed.

Lemma listing_after_addTask_witness :
  addTask (JStr (utf16 "Report")) (JStr (utf16 "2024-08-20")) one_task
  = (inr report,
     World_mk (mk (tasks (manager one_task) ++ [report]) 3) [])
  /\ listTasks None (World_mk (mk (tasks (manager one_task) ++ [report]) 3) [])
     = (inr (tasks (manager one_task) ++ [report]),
        World_mk (mk (tasks (manager one_task) ++ [report]) 3) [])
  /\ listTasks (Some (utf16 "pending"))
       (World_mk (mk (tasks (manager one_task) ++ [report]) 3) [])
     = (inr (pending_tasks (tasks (manager one_task)) ++ [report]),
        World_mk (mk (tasks (manager one_task) ++ [report]) 3) [])
  /\ listTasks (Some (utf16 "completed"))
       (World_mk (mk (tasks (manager one_task) ++ [report]) 3) [])
     = (inr (completed_tasks (tasks (manager one_task))),
        World_mk (mk (tasks (manager one_task) ++ [report]) 3) []).
Proof.
  split; [reflexivity|].
  exact (listing_after_addTask (JStr (utf16 "Report")) (JStr (utf16 "2024-08-20"))
           one_task _ report eq_refl).
Defined.

(** X18. A mark moves its task between the two filtered listings and
    moves nothing else: after a mark that returned, the listing of the
    flag written is the old one of the tasks before the marked task, the
    task returned, and the old one of the tasks after it; the other
    listing is the old one of the tasks before and after it, without the
    marked task. *)
Theorem listing_after_mark (b : bool) (taskId : JsVal) (w w' : World)
    (returned : Task.t) :
  (if b then markTaskComplete else markTaskIncomplete) taskId w = (inr returned, w') ->
  exists i task,
    first_with_id taskId (tasks (manager w)) i task
    /\ (if b then completed_tasks else pending_tasks) (tasks (manager w'))
       = (if b then completed_tasks else pending_tasks) (take i (tasks (manager w)))
         ++ [returned]
         ++ (if b then completed_tasks else pending_tasks) (drop (S i) (tasks (manager w)))
    /\ (if b then pending_tasks else completed_tasks) (tasks (manager w'))
       = (if b then pending_tasks else completed_tasks) (take i (tasks (manager w)))
         ++ (if b then pending_tasks else completed_tasks) (drop (S i) (tasks (manager w))).
Proof.
  rewrite mark_run.
  destruct (find _ _) as [[i task]|] eqn:E; [|discriminate].
  intros [= <- <-]. exists i, task.
  pose proof E as (Hi%lookup_lt_Some & _)%find_Some.
  split; [by apply find_first_with_id|].
  cbn [manager set_tasks tasks]. rewrite insert_take_drop by done.
  unfold completed_tasks, pending_tasks.
  destruct b; rewrite !filter_app, !filter_cons; cbn; done.
Qed.

Lemma listing_after_mark_witness :
  (if true then markTaskComplete else markTaskIncomplete) (JNum (NInt 1)) two_tasks
  = (inr (buy_milk true), World_mk (mk [buy_milk true; report] 3) [])
  /\ exists i task,
       first_with_id (JNum (NInt 1)) (tasks (manager two_tasks)) i task
       /\ completed_tasks (tasks (manager (World_mk (mk [buy_milk true; report] 3) [])))
          = completed_tasks (take i (tasks (manager two_tasks)))
            ++ [buy_milk true]
            ++ completed_tasks (drop (S i) (tasks (manager two_tasks)))
       /\ pending_tasks (tasks (manager (World_mk (mk [buy_milk true; report] 3) [])))
          = pending_tasks (take i (tasks (manager two_tasks)))
            ++ pending_tasks (drop (S i) (tasks (manager two_tasks))).
Proof.
  split; [reflexivity|].
  exact (listing_after_mark true (JNum (NInt 1)) two_tasks
           (World_mk (mk [buy_milk true; report] 3) []) (buy_milk true) eq_refl).
Defined.

(** X19. In a reachable state a deleted id is gone for every operation:
    after a [deleteTask] that returned, no stored task has the id, so
    marking, updating or deleting it again throws the not-found error
    and changes nothing, and no listing shows it; every task with
    another id is still stored. *)
Theorem deleted_is_gone (taskId : JsVal) (u : Updates) (w w' : World) (r : bool) :
  reachable w ->
  deleteTask taskId w = (inr r, w') ->
  absent taskId (tasks (manager w'))
  /\ markTaskComplete taskId w' = (inl (TaskNotFound taskId MarkAsComplete), w')
  /\ markTaskIncomplete taskId w' = (inl (TaskNotFound taskId MarkAsIncomplete), w')
  /\ updateTask taskId u w' = (inl (TaskNotFound taskId Update), w')
  /\ deleteTask taskId w' = (inl (TaskNotFound taskId Delete), w')
  /\ (forall f listed task,
        listTasks f w' = (inr listed, w') -> task ∈ listed ->
        taskId <> JNum (NInt (Task.id task)))
  /\ (forall task,
        task ∈ tasks (manager w) -> taskId <> JNum (NInt (Task.id task)) ->
        task ∈ tasks (manager w')).
Proof.
  intros [Hnd _]%reachable_ids_ok. rewrite deleteTask_run.
  destruct (find _ _) as [[i task]|] eqn:E; [|discriminate].
  intros [= <- <-].
  pose proof (find_Some_number _ _ _ E) as Hnum.
  apply find_first_with_id in E as (Hi & -> & Hfirst).
  assert (absent (JNum (NInt (Task.id task)))
            (delete i (tasks (manager w)))) as Habs.
  { intros task' Hin [= Heq]. by eapply delete_found_gone. }
  pose proof Habs as Hnone%find_absent.
  rewrite markTaskComplete_run, markTaskIncomplete_run, updateTask_run, deleteTask_run.
  cbn [manager set_tasks tasks]. rewrite Hnone. cbn [is_number typeof].
  split_and!; try done.
  - intros f listed task' Hl Hin. apply Habs.
    destruct f as [f|]; [rewrite listTasks_run in Hl|rewrite listTasks_default, listTasks_all in Hl];
      repeat (case_bool_decide; try discriminate);
      injection Hl as <-; try done.
    + by apply elem_of_completed in Hin as [_ ?].
    + by apply elem_of_pending in Hin as [_ ?].
  - intros task' (k & Hk)%list_elem_of_lookup Hne.
    cbn [manager set_tasks tasks]. apply list_elem_of_lookup.
    assert (k <> i) as Hki by (intros ->; congruence).
    destruct (decide (k < i)%nat).
    + exists k. by rewrite list_lookup_delete_lt.
    + exists (k - 1)%nat. rewrite list_lookup_delete_ge by lia.
      by replace (S (k - 1)) with k by lia.
Qed.

Lemma deleted_is_gone_witness :
  reachable two_tasks
  /\ deleteTask (JNum (NInt 1)) two_tasks = (inr true, World_mk (mk [report] 3) [])
  /\ absent (JNum (NInt 1)) (tasks (manager (World_mk (mk [report] 3) [])))
  /\ markTaskComplete (JNum (NInt 1)) (World_mk (mk [report] 3) [])
     = (inl (TaskNotFound (JNum (NInt 1)) MarkAsComplete), World_mk (mk [report] 3) []).
Proof.
  assert (reachable two_tasks) as Hr by (eexists; reflexivity).
  split; [exact Hr|]. split; [reflexivity|].
  pose proof (deleted_is_gone (JNum (NInt 1)) half_valid two_tasks
                (World_mk (mk [report] 3) []) true Hr eq_refl) as (H1 & H2 & _).
  exact (conj H1 H2).
Defined.

Section DueDateShape.

Lemma digit_not_white_space c : (48 <= c <= 57)%N -> is_white_space c = false.
Proof.
  intros H. unfold is_white_space.
  repeat match goal with
         | |- context [(?a <=? ?b)%N] => destruct (N.leb_spec a b)
         | |- context [(?a =? ?b)%N] => destruct (N.eqb_spec a b)
         end; try reflexivity; lia.
Qed.

Lemma yyyy_mm_dd_shape s :
  yyyy_mm_dd s ->
  length s = 10%nat /\ Forall (fun c => is_white_space c = false) s.
Proof.
  intros (y & m & d & -> & Hy & Hm & Hd & Dy & Dm & Dd).
  split; [rewrite !length_app; simpl; lia|].
  assert (forall l, all_digits l -> Forall (fun c => is_white_space c = false) l) as H.
  { intros l Hl. eapply Forall_impl; [exact Hl|]. apply digit_not_white_space. }
  rewrite !Forall_app. split_and!; auto; by repeat constructor.
Qed.

End DueDateShape.

(** X20. A due date is taken as given, never trimmed: a value that
    passes the due-date check is a string, or an object tested through
    its string conversion, and the text tested has exactly ten code units
    with no white space among them; so a value whose text is that text
    with white space before or after it is refused, by the constructor
    (hence by [addTask]) and by [updateDueDate]. *)
Theorem dueDate_not_trimmed (v : JsVal) :
  Task.dueDate_rejected v = false ->
  (exists s, tested_as v s /\ length s = 10%nat
             /\ Forall (fun c => is_white_space c = false) s)
  /\ forall s c padded task id d k,
       tested_as v s -> is_white_space c = true ->
       tested_as padded (c :: s) \/ tested_as padded (s ++ [c]) ->
       Task.updateDueDate padded task = (inl InvalidNewDueDate, task)
       /\ (valid_description d ->
           Task.constructor id d padded k = inl InvalidDueDate).
Proof.
  intros (s & Hv & Hs)%dueDate_accepted.
  destruct (yyyy_mm_dd_shape s Hs) as [Hlen Hws].
  split; [by exists s|].
  intros s' c padded task id d k Hv' Hc Hp.
  assert (s' = s) as -> by (destruct Hv as [-> | ->], Hv' as [[=] | [=]]; done).
  assert (Task.dueDate_rejected padded = true) as H.
  { apply not_false_iff_true. intros (t & Ht & H')%dueDate_accepted.
    apply yyyy_mm_dd_shape in H' as [_ H'].
    assert (t = c :: s \/ t = s ++ [c]) as [-> | ->].
    { destruct Hp as [Hp | Hp]; [left | right];
        destruct Ht as [-> | ->], Hp as [[=] | [=]]; done. }
    - inversion H'; congruence.
    - apply Forall_app in H' as [_ H']. inversion H'; congruence. }
  unfold Task.updateDueDate, Task.constructor. rewrite H.
  split; [done|]. intros Hd%description_accepted. by rewrite Hd.
Qed.

Lemma dueDate_not_trimmed_witness :
  Task.dueDate_rejected date_in_array = false
  /\ exists s, tested_as date_in_array s /\ length s = 10%nat
               /\ Forall (fun c => is_white_space c = false) s.
Proof.
  split; [reflexivity|].
  exact (proj1 (dueDate_not_trimmed date_in_array eq_refl)).
Defined.

Section UpdateAgain.

Lemma reachable_tasks_ok w : reachable w -> Forall task_ok (tasks (manager w)).
Proof.
  revert w. apply (reachable_invariant (fun w => Forall task_ok (tasks (manager w)))).
  - constructor.
  - intros c w. apply step_tasks_ok, exec_step.
Qed.

Lemma set_description_same task : Task.set_description (Task.description task) task = task.
Proof. by destruct task. Qed.

Lemma set_dueDate_same task : Task.set_dueDate (Task.dueDate task) task = task.
Proof. by destruct task. Qed.

End UpdateAgain.

(** X21. [updateTask] is idempotent: repeating an update that returned
    returns the same task and changes nothing. *)
Theorem updateTask_twice (taskId : JsVal) (u : Updates) (w w' : World)
    (returned : Task.t) :
  updateTask taskId u w = (inr returned, w') ->
  updateTask taskId u w' = (inr returned, w').
Proof.
  rewrite !updateTask_run.
  destruct (find _ _) as [[i task]|] eqn:E; [|discriminate].
  pose proof E as (Hi%lookup_lt_Some & _)%find_Some.
  unfold on_task at 1. cbn [fst snd].
  pose proof (update_found_id u task) as Hid.
  destruct (update_found u task) as [r task'] eqn:U. cbn [snd] in Hid.
  intros [= -> <-]. cbn [manager set_tasks tasks].
  rewrite (find_insert_same_id _ _ _ _ task' E Hid).
  assert (update_found u task' = (inr returned, returned) /\ task' = returned) as [U' ->].
  { revert U. rewrite !update_found_run.
    destruct u as [[d|] [dd|]]; cbn [upd_description upd_dueDate];
      try destruct (Task.description_rejected d);
      try destruct (Task.dueDate_rejected dd); try discriminate;
      intros [= <- <-]; done. }
  unfold on_task. cbn [fst snd]. rewrite U'.
  cbn [manager set_tasks tasks nextId console].
  by rewrite list_insert_insert_eq.
Qed.

Lemma updateTask_twice_witness :
  updateTask (JNum (NInt 2))
    {| upd_description := Some (JStr (utf16 " Final report ")); upd_dueDate := None |}
    two_tasks
  = (inr (Task.mk 2 (utf16 "Final report") (JStr (utf16 "2024-08-20")) false),
     World_mk (mk [buy_milk false;
                   Task.mk 2 (utf16 "Final report") (JStr (utf16 "2024-08-20")) false] 3) [])
  /\ updateTask (JNum (NInt 2))
       {| upd_description := Some (JStr (utf16 " Final report ")); upd_dueDate := None |}
       (World_mk (mk [buy_milk false;
                      Task.mk 2 (utf16 "Final report") (JStr (utf16 "2024-08-20")) false] 3) [])
     = (inr (Task.mk 2 (utf16 "Final report") (JStr (utf16 "2024-08-20")) false),
        World_mk (mk [buy_milk false;
                      Task.mk 2 (utf16 "Final report") (JStr (utf16 "2024-08-20")) false] 3) []).
Proof.
  split; [reflexivity|].
  exact (updateTask_twice (JNum (NInt 2))
           {| upd_description := Some (JStr (utf16 " Final report ")); upd_dueDate := None |}
           two_tasks _ _ eq_refl).
Defined.

(** X22. In a reachable state a stored task passes its own validation:
    updating the first task with an id with its own description and due
    date is accepted, returns it and changes nothing. *)
Theorem updateTask_write_back (taskId : JsVal) (w : World) (i : nat)
    (task : Task.t) :
  reachable w ->
  first_with_id taskId (tasks (manager w)) i task ->
  updateTask taskId
    {| upd_description := Some (JStr (Task.description task));
       upd_dueDate := Some (Task.dueDate task) |} w
  = (inr task, w).
Proof.
  intros Hok%reachable_tasks_ok E%find_first_with_id.
  pose proof E as (Hi & _)%find_Some.
  destruct (Forall_lookup_1 _ _ _ _ Hok Hi) as (Hne & Htrim & _ & Hdate).
  rewrite updateTask_run, E. unfold on_task. cbn [fst snd].
  rewrite update_found_run. cbn [upd_description upd_dueDate].
  rewrite (proj2 (description_accepted _)) by (eexists; by rewrite Htrim).
  rewrite (proj2 (dueDate_accepted _) Hdate). cbn [Task.trim_of].
  rewrite Htrim, set_description_same, set_dueDate_same. cbn [snd].
  by rewrite list_insert_id, set_tasks_same.
Qed.

Lemma updateTask_write_back_witness :
  reachable two_tasks
  /\ first_with_id (JNum (NInt 2)) (tasks (manager two_tasks)) 1 report
  /\ updateTask (JNum (NInt 2))
       {| upd_description := Some (JStr (Task.description report));
          upd_dueDate := Some (Task.dueDate report) |} two_tasks
     = (inr report, two_tasks).
Proof.
  assert (reachable two_tasks) as Hr by (eexists; reflexivity).
  assert (first_with_id (JNum (NInt 2)) (tasks (manager two_tasks)) 1 report) as H.
  { split; [reflexivity|]. split; [reflexivity|].
    intros [|[|j]] task' Hj Hlt; [|lia..].
    injection Hj as <-. vm_compute. discriminate. }
  split; [exact Hr|]. split; [exact H|].
  exact (updateTask_write_back (JNum (NInt 2)) two_tasks 1 report Hr H).
Defined.

Section Spelling.

Lemma lower_code_unit_cases c :
  ((65 <= c <= 90)%N /\ lower_code_unit c = [(c + 32)%N])
  \/ (c = 304%N /\ lower_code_unit c = [105%N; 775%N])
  \/ (c = 8490%N /\ lower_code_unit c = [107%N])
  \/ (~ (65 <= c <= 90)%N /\ c <> 304%N /\ c <> 8490%N /\ lower_code_unit c = [c]).
Proof.
  unfold lower_code_unit.
  destruct (N.leb_spec 65 c), (N.leb_spec c 90); cbn [andb];
    try (left; split; [lia | reflexivity]);
    (destruct (N.eqb_spec c 304);
     [right; left; by subst
     |destruct (N.eqb_spec c 8490);
      [right; right; left; by subst
      |right; right; right; split_and!; try done; lia]]).
Qed.

Lemma toLowerCase_cons c r : toLowerCase (c :: r) = lower_code_unit c ++ toLowerCase r.
Proof. reflexivity. Qed.

Lemma toLowerCase_spells word f :
  plain_lower word -> toLowerCase f = word <-> spells word f.
Proof.
  unfold spells. intros Hw. split.
  - revert word Hw. induction f as [|c r IH]; intros word Hw.
    + cbn. intros <-. constructor.
    + rewrite toLowerCase_cons.
      destruct (lower_code_unit_cases c)
        as [(Hc & ->) | [(-> & ->) | [(-> & ->) | (Hc & _ & _ & ->)]]];
        cbn; intros <-; inversion Hw as [|k word' [Hk Hk'] Hw']; subst.
      * constructor; [right; by split | by apply IH].
      * inversion Hw' as [|? ? [? ?]]; lia.
      * done.
      * constructor; [by left | by apply IH].
  - induction 1 as [|c k r word' Hck Hrest IH]; [reflexivity|].
    inversion Hw as [|? ? [Hk Hk'] Hw']; subst.
    rewrite toLowerCase_cons, (IH Hw').
    destruct (lower_code_unit_cases c)
      as [(Hc & ->) | [(-> & ->) | [(-> & ->) | (Hc & _ & _ & ->)]]];
      destruct Hck as [<- | [Hc' <-]]; try reflexivity; try lia.
Qed.

Lemma keywords_plain :
  plain_lower (utf16 "all") /\ plain_lower (utf16 "completed")
  /\ plain_lower (utf16 "pending").
Proof.
  unfold plain_lower.
  split_and!; repeat (constructor; [split; [cbn; lia | by cbn]|]); constructor.
Qed.

End Spelling.

(** X23. The filters [listTasks] accepts are exactly the spellings of
    "all", "completed" and "pending" in any mix of upper and lower case:
    such a filter gives the listing of its word, and every other string
    (a word with white space around it, say, since the filter is not
    trimmed) throws the invalid-filter error quoting it, with the state
    unchanged. *)
Theorem listTasks_accepts_spellings (f : jsstring) (w : World) :
  (spells (utf16 "all") f ->
     listTasks (Some f) w = (inr (tasks (manager w)), w))
  /\ (spells (utf16 "completed") f ->
     listTasks (Some f) w = (inr (completed_tasks (tasks (manager w))), w))
  /\ (spells (utf16 "pending") f ->
     listTasks (Some f) w = (inr (pending_tasks (tasks (manager w))), w))
  /\ (~ spells (utf16 "all") f -> ~ spells (utf16 "completed") f ->
      ~ spells (utf16 "pending") f ->
      listTasks (Some f) w = (inl (InvalidFilterStatus f), w)).
Proof.
  destruct keywords_plain as (Ha & Hc & Hp).
  rewrite <- !(toLowerCase_spells _ f) by done. rewrite listTasks_run.
  split_and!.
  - by intros ->.
  - by intros ->.
  - by intros ->.
  - intros H1 H2 H3. by rewrite !bool_decide_eq_false_2.
Qed.

Lemma listTasks_accepts_spellings_witness :
  spells (utf16 "completed") (utf16 "ComPLETED")
  /\ listTasks (Some (utf16 "ComPLETED")) two_tasks
     = (inr (completed_tasks (tasks (manager two_tasks))), two_tasks).
Proof.
  assert (spells (utf16 "completed") (utf16 "ComPLETED")) as H.
  { unfold spells. cbn.
    repeat (constructor; [first [by left | right; split; [lia | reflexivity]]|]).
    constructor. }
  split; [exact H|].
  exact (proj1 (proj2 (listTasks_accepts_spellings (utf16 "ComPLETED") two_tasks)) H).
Defined.
